(** * A shallow embedding of the extended CKY recogniser of [cky.py]

    The recogniser fills an upper-triangular chart of cells bottom-up.  It goes
    beyond Chomsky normal form: unary rules may chain, and binary rules may mix
    terminals and nonterminals.  This file embeds the classes [CKY] and [Cell]
    and proves properties of rule indexing, label addition, unary closure, the
    diagonal fill, the span-ordered binary scan and the reported result.

    Python objects mutated in place become explicit state: every method of
    [CKY] takes the recogniser and returns the updated one.  Exceptions are
    values of [exn] carried by the error monad [Res].  Tracing ([log]) has no
    effect on the chart and is left out. *)

From stdpp Require Import base option list strings gmap sorting relations.

(** ** Symbols, productions and grammars *)

(** A symbol is either a Python string (a terminal) or an
    [nltk.grammar.Nonterminal]; the two never compare equal. *)
Inductive Symbol : Type :=
  | Terminal (w : string)
  | Nonterminal (x : string).

#[global] Instance Symbol_eq_dec : EqDecision Symbol.
Proof. solve_decision. Defined.

Definition Symbol_encode (s : Symbol) : string + string :=
  match s with Terminal w => inl w | Nonterminal x => inr x end.

Definition Symbol_decode (s : string + string) : Symbol :=
  match s with inl w => Terminal w | inr x => Nonterminal x end.

#[global] Instance Symbol_countable : Countable Symbol.
Proof.
  refine (inj_countable' Symbol_encode Symbol_decode _).
  by intros [].
Defined.

(** [nltk.grammar.Production]: a left-hand side and a right-hand tuple. *)
Record Production : Type := mkProduction {
  lhs : Symbol;
  rhs : list Symbol
}.

(** The grammar object, as far as the recogniser reads it. *)
Record CFG : Type := mkCFG {
  start : Symbol;
  productions : list Production
}.

(** ** Exceptions and the error monad *)

Inductive exn : Type :=
  | AssertionError
  | IndexError
  | AttributeError
  | RecursionError.

Inductive Res (A : Type) : Type :=
  | Ok (a : A)
  | Raise (e : exn).
Arguments Ok {A} a.
Arguments Raise {A} e.

#[global] Instance Res_ret : MRet Res := fun A a => Ok a.
#[global] Instance Res_bind : MBind Res := fun A B f m =>
  match m with
  | Ok a => f a
  | Raise e => Raise e
  end.

#[global] Instance Res_fmap : FMap Res := fun A B f m =>
  match m with
  | Ok a => Ok (f a)
  | Raise e => Raise e
  end.

(** A [for] statement over a list that is not changed by its body: the body
    runs on each element in turn and the first exception leaves the loop. *)
Fixpoint for_ {A S : Type} (l : list A) (body : A → S → Res S) (s : S) : Res S :=
  match l with
  | [] => Ok s
  | x :: l' =>
      match body x s with
      | Ok s' => for_ l' body s'
      | Raise e => Raise e
      end
  end.

(** Python's [range(a, b)]. *)
Definition range (a b : nat) : list nat := seq a (b - a).

(** [l[i]] for a non-negative index. *)
Definition getitem {A : Type} (l : list A) (i : nat) : Res A :=
  match l !! i with
  | Some x => Ok x
  | None => Raise IndexError
  end.

(** ** Cells *)

Record Cell : Type := mkCell {
  _row : nat;
  _column : nat;
  _labels : list Symbol
}.

Module Cell.

Definition labels (self : Cell) : list Symbol := _labels self.

(** [if label not in self._labels: self._labels.append(label)] *)
Definition addLabel (label : Symbol) (self : Cell) : Cell :=
  if decide (label ∈ _labels self) then self
  else mkCell (_row self) (_column self) (_labels self ++ [label]).

(** The recursion of [unaryUpdate] has no guard of its own: it calls itself
    on every parent, whether or not the parent was already a label.  The
    first argument is the number of nested calls the interpreter still
    allows; when it is used up the call raises [RecursionError].  [unary] is
    the recogniser's index, which the source reaches as
    [self.matrix.unary]. *)
Fixpoint unaryUpdate (depth : nat) (unary : gmap Symbol (list Symbol))
    (symbol : Symbol) (self : Cell) : Res Cell :=
  match depth with
  | 0 => Raise RecursionError
  | S depth' =>
      match unary !! symbol with
      | Some parents =>
          for_ parents
            (fun parent self => unaryUpdate depth' unary parent (addLabel parent self))
            self
      | None => Ok self
      end
  end.

End Cell.

(** ** The recogniser *)

Record CKY : Type := mkCKY {
  verbose : bool;
  grammar : CFG;
  unary : gmap Symbol (list Symbol);
  binary : gmap (Symbol * Symbol) (list Symbol);
  words : list string;
  n : nat;
  matrix : list (list (option Cell))
}.

(** [d[k].append(v)] on a [defaultdict(list)]. *)
Definition dd_append {K : Type} `{Countable K} (k : K) (v : Symbol)
    (d : gmap K (list Symbol)) : gmap K (list Symbol) :=
  <[k := default [] (d !! k) ++ [v]]> d.

(** One turn of the loop of [buildIndices]; the [assert] is taken as
    executed (the interpreter does not run with assertions stripped). *)
Definition index_production (production : Production)
    (ub : gmap Symbol (list Symbol) * gmap (Symbol * Symbol) (list Symbol))
    : Res (gmap Symbol (list Symbol) * gmap (Symbol * Symbol) (list Symbol)) :=
  match rhs production with
  | [c] => Ok (dd_append c (lhs production) ub.1, ub.2)
  | [c1; c2] => Ok (ub.1, dd_append (c1, c2) (lhs production) ub.2)
  | _ => Raise AssertionError
  end.

Definition buildIndices (productions : list Production)
    : Res (gmap Symbol (list Symbol) * gmap (Symbol * Symbol) (list Symbol)) :=
  for_ productions index_production (∅, ∅).

(** [CKY.__init__]: the attributes [words], [n] and [matrix] do not exist
    until [recognise] assigns them; they are given empty values here. *)
Definition CKY_init (grammar : CFG) : Res CKY :=
  ub ← buildIndices (productions grammar);
  Ok (mkCKY false grammar ub.1 ub.2 [] 0 []).

Definition set_matrix (m : list (list (option Cell))) (self : CKY) : CKY :=
  mkCKY (verbose self) (grammar self) (unary self) (binary self)
        (words self) (n self) m.

(** [self.matrix[r][c]], which may be the filler [None]. *)
Definition matrix_at (self : CKY) (r c : nat) : Res (option Cell) :=
  row ← getitem (matrix self) r;
  getitem row c.

(** Reading an attribute of a matrix entry fails on the filler. *)
Definition deref (entry : option Cell) : Res Cell :=
  match entry with
  | Some cell => Ok cell
  | None => Raise AttributeError
  end.

(** A cell object is shared between the matrix and the local variable
    [cell]; matrix entries are never reassigned, so the object is identified
    by its position and a method call on it rewrites that position. *)
Definition store_cell (r c : nat) (cell : Cell) (self : CKY) : CKY :=
  match matrix self !! r with
  | Some row => set_matrix (<[r := <[c := Some cell]> row]> (matrix self)) self
  | None => self
  end.

Definition call_cell (r c : nat) (method : Cell → Res Cell) (self : CKY) : Res CKY :=
  entry ← matrix_at self r c;
  cell ← deref entry;
  cell' ← method cell;
  Ok (store_cell r c cell' self).

(** The rows built by [recognise]: a cell where [c > r], a filler elsewhere. *)
Definition new_row (n r : nat) : list (option Cell) :=
  (fun c => if decide (r < c) then Some (mkCell r c []) else None) <$> range 0 n.

Definition new_matrix (n : nat) : list (list (option Cell)) :=
  new_row n <$> range 0 (n - 1).

(** One turn of the loop of [unaryFill]. *)
Definition unaryFill_turn (limit r : nat) (self : CKY) : Res CKY :=
  cell ← matrix_at self r (r + 1);
  word ← getitem (words self) r;
  cell ← deref cell;
  let cell := Cell.addLabel (Terminal word) cell in
  cell ← Cell.unaryUpdate limit (unary self) (Terminal word) cell;
  Ok (store_cell r (r + 1) cell self).

Definition unaryFill (limit : nat) (self : CKY) : Res CKY :=
  for_ (range 0 (n self - 1)) (unaryFill_turn limit) self.

(** [maybeBuild] iterates over the label lists of the cells [(start, mid)]
    and [(mid, end)] while it appends to the list of the cell [(start, end)].
    A matrix built by [recognise] has a cell at [(r, c)] only when [c > r],
    so that the three cells, when they all exist, are different objects and
    the lists iterated over are not the list that grows. *)
Definition maybeBuild (limit start mid end_ : nat) (self : CKY) : Res CKY :=
  _ ← matrix_at self start end_;
  left ← matrix_at self start mid;
  left ← deref left;
  for_ (Cell.labels left)
    (fun s1 self =>
       right ← matrix_at self mid end_;
       right ← deref right;
       for_ (Cell.labels right)
         (fun s2 self =>
            match binary self !! (s1, s2) with
            | Some parents =>
                for_ parents
                  (fun s self =>
                     self ← call_cell start end_ (fun cell => Ok (Cell.addLabel s cell)) self;
                     call_cell start end_ (Cell.unaryUpdate limit (unary self) s) self)
                  self
            | None => Ok self
            end)
         self)
    self.

Definition binaryScan (limit : nat) (self : CKY) : Res CKY :=
  for_ (range 2 (n self))
    (fun span self =>
       for_ (range 0 (n self - span))
         (fun start self =>
            let end_ := start + span in
            for_ (range (start + 1) end_)
              (fun mid self => maybeBuild limit start mid end_ self)
              self)
         self)
    self.

(** What [recognise] returns: [False], or the [int] length of the label list
    of the top cell. *)
Inductive outcome : Type :=
  | ret_False
  | ret_int (k : nat).

(** The assignments at the head of [recognise]. *)
Definition recognise_init (tokens : list string) (verbose : bool) (self : CKY) : CKY :=
  mkCKY verbose (grammar self) (unary self) (binary self)
        tokens (length tokens + 1) (new_matrix (length tokens + 1)).

(** The chart as it stands when [recognise] reaches its [if]; [verbose] is
    left at its default. *)
Definition fill_chart (limit : nat) (tokens : list string) (self : CKY) : Res CKY :=
  self ← unaryFill limit (recognise_init tokens false self);
  binaryScan limit self.

Definition recognise (limit : nat) (tokens : list string) (self : CKY)
    : Res (outcome * CKY) :=
  self ← fill_chart limit tokens self;
  top ← matrix_at self 0 (n self - 1);
  top ← deref top;
  if decide (start (grammar self) ∉ Cell.labels top)
  then Ok (ret_False, self)
  else Ok (ret_int (length (Cell.labels top)), self).

(** ** Specification-level notions *)

(** Each element of a sequence at its first occurrence only. *)
Fixpoint first_occurrences (ss : list Symbol) : list Symbol :=
  match ss with
  | [] => []
  | s :: ss' => s :: filter (fun x => x ≠ s) (first_occurrences ss')
  end.

(** The parents the productions give to a child, in production order. *)
Definition unary_parents (ps : list Production) (c : Symbol) : list Symbol :=
  lhs <$> filter (fun p => rhs p = [c]) ps.

Definition binary_parents (ps : list Production) (c1 c2 : Symbol) : list Symbol :=
  lhs <$> filter (fun p => rhs p = [c1; c2]) ps.

(** The arity the recogniser accepts. *)
Definition arity_ok (p : Production) : Prop :=
  length (rhs p) = 1 ∨ length (rhs p) = 2.

Definition arity_bad (p : Production) : Prop :=
  length (rhs p) = 0 ∨ 2 < length (rhs p).

(** [parent_of unary c p]: the index lists [p] as a parent of [c], that is,
    the grammar has a unary rule [p -> c]. *)
Definition parent_of (unary : gmap Symbol (list Symbol)) (c p : Symbol) : Prop :=
  ∃ parents, unary !! c = Some parents ∧ p ∈ parents.

(** [returns depth unary symbol]: the nesting of calls that [unaryUpdate]
    makes from [symbol] stays within [depth]. *)
Fixpoint returns (depth : nat) (unary : gmap Symbol (list Symbol)) (symbol : Symbol) : Prop :=
  match depth with
  | 0 => False
  | S depth' =>
      match unary !! symbol with
      | Some parents => Forall (returns depth' unary) parents
      | None => True
      end
  end.

(** What a run of unary closure from the symbols [roots] does to a cell: the
    position is kept, labels are only appended, no label is repeated, and the
    labels afterwards are the earlier ones and everything reachable from the
    symbols of [roots] by unary rules. *)
Definition closure_of (unary : gmap Symbol (list Symbol)) (roots : list Symbol)
    (cell cell' : Cell) : Prop :=
  _row cell' = _row cell ∧ _column cell' = _column cell ∧
  Cell.labels cell `prefix_of` Cell.labels cell' ∧
  (NoDup (Cell.labels cell) → NoDup (Cell.labels cell')) ∧
  ∀ x, x ∈ Cell.labels cell' ↔
       x ∈ Cell.labels cell ∨ ∃ p, p ∈ roots ∧ rtc (parent_of unary) p x.

(** ** The chart *)

(** The cell object at [matrix[r][c]], if the entry exists and is a cell. *)
Definition cell_at (self : CKY) (r c : nat) : option Cell :=
  match matrix self !! r with
  | Some row =>
      match row !! c with
      | Some entry => entry
      | None => None
      end
  | None => None
  end.

(** The chart has a cell exactly at the positions above the diagonal. *)
Definition wf_chart (self : CKY) : Prop :=
  ∀ r c, is_Some (cell_at self r c) ↔ r < c < n self.

(** Add a label to a cell, then close the cell under unary rules starting
    from that label. *)
Definition add_and_close (limit : nat) (u : gmap Symbol (list Symbol))
    (s : Symbol) (cell : Cell) : Res Cell :=
  Cell.unaryUpdate limit u s (Cell.addLabel s cell).

(** The parents that the binary index gives to the pairs of a left and a
    right label, in the order in which [maybeBuild] meets them. *)
Definition build_parents (b : gmap (Symbol * Symbol) (list Symbol))
    (l1 l2 : list Symbol) : list Symbol :=
  s1 ← l1; s2 ← l2; default [] (b !! (s1, s2)).

(** The positions [(start, mid, end)] that [binaryScan] passes to
    [maybeBuild], in order. *)
Definition scan_visits (n : nat) : list (nat * nat * nat) :=
  span ← range 2 n;
  start ← range 0 (n - span);
  mid ← range (start + 1) (start + span);
  [(start, mid, start + span)].

(** Two states of the recogniser that differ at most in the matrix. *)
Definition frame (self self' : CKY) : Prop :=
  verbose self' = verbose self ∧ grammar self' = grammar self ∧
  unary self' = unary self ∧ binary self' = binary self ∧
  words self' = words self ∧ n self' = n self.

(** The order of the visits: by span, then by start, then by split point. *)
Definition visit_lt (v w : nat * nat * nat) : Prop :=
  let '(start1, mid1, end1) := v in
  let '(start2, mid2, end2) := w in
  end1 - start1 < end2 - start2 ∨
  (end1 - start1 = end2 - start2 ∧
   (start1 < start2 ∨ (start1 = start2 ∧ mid1 < mid2))).

(** A property of cells that holds of every cell of the chart. *)
Definition cells_satisfy (P : Cell → Prop) (self : CKY) : Prop :=
  ∀ r c cell, cell_at self r c = Some cell → P cell.

(** A property of cells that adding a label and closing keeps. *)
Definition stable (limit : nat) (u : gmap Symbol (list Symbol)) (P : Cell → Prop) : Prop :=
  ∀ s cell cell', P cell → add_and_close limit u s cell = Ok cell' → P cell'.

(** A cell is closed under the unary rules when it holds the parents of its
    labels; [closed_within limit] asks in addition that the closure from each
    of its labels stays within the nesting depth [limit]. *)
Definition unary_closed (u : gmap Symbol (list Symbol)) (cell : Cell) : Prop :=
  ∀ l p, l ∈ Cell.labels cell → parent_of u l p → p ∈ Cell.labels cell.

Definition closed_within (limit : nat) (u : gmap Symbol (list Symbol)) (cell : Cell) : Prop :=
  unary_closed u cell ∧ ∀ l, l ∈ Cell.labels cell → returns limit u l.

(** The charts that [recognise] works on: cells above the diagonal, one row
    per word. *)
Definition chart_ok (self : CKY) : Prop :=
  wf_chart self ∧ n self = length (words self) + 1.

(** ** Example grammars *)

(** A grammar with the unary cycle [X -> Y], [Y -> X]. *)
Definition cyclic_grammar : CFG :=
  mkCFG (Nonterminal "X")
    [mkProduction (Nonterminal "X") [Nonterminal "Y"];
     mkProduction (Nonterminal "Y") [Nonterminal "X"]].

(** The same cycle, reached from the word ['a'] by [Y -> 'a']. *)
Definition cyclic_word_grammar : CFG :=
  mkCFG (Nonterminal "X")
    (mkProduction (Nonterminal "Y") [Terminal "a"] :: productions cyclic_grammar).

(** [N -> 'dog'], [S -> N]: a unary chain without a cycle. *)
Definition chain_grammar : CFG :=
  mkCFG (Nonterminal "S")
    [mkProduction (Nonterminal "N") [Terminal "dog"];
     mkProduction (Nonterminal "S") [Nonterminal "N"]].

Definition chain_unary : gmap Symbol (list Symbol) :=
  <[Nonterminal "N" := [Nonterminal "S"]]>
    (<[Terminal "dog" := [Nonterminal "N"]]> ∅).

(** [S -> NP VP], [NP -> 'the' N], [N -> 'dog'], [VP -> 'barks']. *)
Definition dog_grammar : CFG :=
  mkCFG (Nonterminal "S")
    [mkProduction (Nonterminal "S") [Nonterminal "NP"; Nonterminal "VP"];
     mkProduction (Nonterminal "NP") [Terminal "the"; Nonterminal "N"];
     mkProduction (Nonterminal "N") [Terminal "dog"];
     mkProduction (Nonterminal "VP") [Terminal "barks"]].

(** The recogniser for a grammar whose index could be built; for a grammar
    with a production of bad arity there is none, and the placeholder with
    empty indices stands in. *)
Definition recogniser (g : CFG) : CKY :=
  match CKY_init g with
  | Ok self => self
  | Raise _ => mkCKY false g ∅ ∅ [] 0 []
  end.

(** ** Derivations *)

(** [tokens[r:c]] *)
Definition slice (tokens : list string) (r c : nat) : list string :=
  take (c - r) (drop r tokens).

(** [derives ps s ws]: the symbol [s] rewrites to the words [ws] by the
    unary and binary productions of [ps]; a word is the terminal of
    itself. *)
Inductive derives (ps : list Production) : Symbol → list string → Prop :=
  | derives_word w :
      derives ps (Terminal w) [w]
  | derives_unary p c ws :
      mkProduction p [c] ∈ ps → derives ps c ws → derives ps p ws
  | derives_binary p c1 c2 ws1 ws2 :
      mkProduction p [c1; c2] ∈ ps →
      derives ps c1 ws1 → derives ps c2 ws2 → derives ps p (ws1 ++ ws2).

(** The indices list the parents that the productions give. *)
Definition indexes (ps : list Production)
    (u : gmap Symbol (list Symbol)) (b : gmap (Symbol * Symbol) (list Symbol)) : Prop :=
  (∀ c p, parent_of u c p ↔ mkProduction p [c] ∈ ps) ∧
  (∀ c1 c2 p, (∃ parents, b !! (c1, c2) = Some parents ∧ p ∈ parents) ↔
              mkProduction p [c1; c2] ∈ ps).

(** Every label of the chart derives the words of its span. *)
Definition sound (ps : list Production) (tokens : list string) (self : CKY) : Prop :=
  ∀ r c cell x, cell_at self r c = Some cell → x ∈ Cell.labels cell →
    derives ps x (slice tokens r c).

(** Every symbol that derives the words of a span is a label of its cell. *)
Definition complete (ps : list Production) (tokens : list string) (self : CKY) : Prop :=
  ∀ r c x, r < c ≤ length tokens → derives ps x (slice tokens r c) →
    ∃ cell, cell_at self r c = Some cell ∧ x ∈ Cell.labels cell.

(** The cells of [self'] extend the cells of [self]. *)
Definition grows (self self' : CKY) : Prop :=
  ∀ r c cell, cell_at self r c = Some cell →
    ∃ cell', cell_at self' r c = Some cell' ∧
             _row cell' = _row cell ∧ _column cell' = _column cell ∧
             Cell.labels cell `prefix_of` Cell.labels cell'.

(** [unary_rule ps c p]: the grammar has the production [p -> c]. *)
Definition unary_rule (ps : list Production) (c p : Symbol) : Prop :=
  mkProduction p [c] ∈ ps.


(** The matrix has [n - 1] rows of [n] entries, and every cell records the
    position it is stored at. *)
Definition matrix_shape (self : CKY) : Prop :=
  length (matrix self) = n self - 1 ∧
  (∀ r row, matrix self !! r = Some row → length row = n self) ∧
  ∀ r c cell, cell_at self r c = Some cell → _row cell = r ∧ _column cell = c.

(** [chain_grammar] with its productions in another order and one of them
    twice. *)
Definition chain_grammar_shuffled : CFG :=
  mkCFG (Nonterminal "S")
    [mkProduction (Nonterminal "S") [Nonterminal "N"];
     mkProduction (Nonterminal "N") [Terminal "dog"];
     mkProduction (Nonterminal "S") [Nonterminal "N"]].

(** ** Labels *)

(** The class [Label]: a symbol, in a wrapper of its own. *)
Record Label : Type := mkLabel {
  _symbol : Symbol
}.


Module Label.

Definition symbol (self : Label) : Symbol := _symbol self.


End Label.

(** * Properties *)

(** ** Loops *)

Section for_loops.
Context {A S : Type}.
Implicit Types (l : list A) (body : A → S → Res S) (s : S).

Lemma for_nil body s : for_ [] body s = Ok s.
Proof. done. Qed.

Lemma for_cons x l body s :
  for_ (x :: l) body s = body x s ≫= for_ l body.
Proof. simpl. by destruct (body x s). Qed.

Lemma for_app l1 l2 body s :
  for_ (l1 ++ l2) body s = for_ l1 body s ≫= for_ l2 body.
Proof.
  revert s. induction l1 as [|x l1 IH]; intros s; simpl; [done|].
  destruct (body x s); [apply IH|done].
Qed.

(** A property kept by every successful turn is kept by the loop. *)
Lemma for_invariant (I : S → Prop) l body s s' :
  (∀ x t t', x ∈ l → I t → body x t = Ok t' → I t') →
  I s → for_ l body s = Ok s' → I s'.
Proof.
  revert s. induction l as [|x l IH]; intros s Hbody Hs Hrun; simpl in Hrun.
  - by simplify_eq.
  - destruct (body x s) as [t|] eqn:Hx; [|done].
    apply (IH t); [|by eapply Hbody; [left| |]|done].
    intros y u u' Hy. apply Hbody. by right.
Qed.

Lemma for_ext l body1 body2 s :
  (∀ x t, x ∈ l → body1 x t = body2 x t) →
  for_ l body1 s = for_ l body2 s.
Proof.
  revert s. induction l as [|x l IH]; intros s Hb; simpl; [done|].
  rewrite Hb; [|by left]. destruct (body2 x s); [|done].
  apply IH. intros y t Hy. apply Hb. by right.
Qed.
End for_loops.

Lemma bind_Ok {A B : Type} (m : Res A) (f : A → Res B) (b : B) :
  m ≫= f = Ok b ↔ ∃ a, m = Ok a ∧ f a = Ok b.
Proof.
  destruct m; simpl; split; try done.
  - eauto.
  - by intros (? & [= ->] & ?).
  - by intros (? & ? & ?).
Qed.

Lemma filter_all {A : Type} (P : A → Prop) `{∀ x, Decision (P x)} (l : list A) :
  Forall P l → filter P l = l.
Proof.
  induction 1 as [|x l Hx _ IH]; [done|].
  rewrite filter_cons_True by done. by f_equal.
Qed.

(** ** Label addition *)

Lemma addLabel_labels s cell :
  Cell.labels (Cell.addLabel s cell) =
    if decide (s ∈ Cell.labels cell) then Cell.labels cell
    else Cell.labels cell ++ [s].
Proof. unfold Cell.addLabel, Cell.labels. by case_decide. Qed.

Lemma addLabel_position s cell :
  _row (Cell.addLabel s cell) = _row cell ∧
  _column (Cell.addLabel s cell) = _column cell.
Proof. unfold Cell.addLabel. by case_decide. Qed.

Lemma addLabel_present s cell :
  s ∈ Cell.labels cell → Cell.addLabel s cell = cell.
Proof. unfold Cell.addLabel, Cell.labels. intros. by rewrite decide_True. Qed.

Lemma elem_of_addLabel x s cell :
  x ∈ Cell.labels (Cell.addLabel s cell) ↔ x ∈ Cell.labels cell ∨ x = s.
Proof.
  rewrite addLabel_labels. case_decide.
  - split; [tauto|]. by intros [?| ->].
  - rewrite elem_of_app, list_elem_of_singleton. done.
Qed.

Lemma addLabel_NoDup s cell :
  NoDup (Cell.labels cell) → NoDup (Cell.labels (Cell.addLabel s cell)).
Proof.
  intros Hnd. rewrite addLabel_labels. case_decide; [done|].
  apply NoDup_app. split_and!; [done| |apply NoDup_singleton].
  intros x Hx ->%list_elem_of_singleton. done.
Qed.

Lemma addLabel_fold_labels ss cell :
  Cell.labels (foldl (flip Cell.addLabel) cell ss) =
    Cell.labels cell ++ filter (fun x => x ∉ Cell.labels cell) (first_occurrences ss).
Proof.
  revert cell. induction ss as [|s ss IH]; intros cell; simpl.
  - by rewrite app_nil_r.
  - rewrite IH, addLabel_labels. unfold flip. rewrite filter_cons.
    destruct (decide (s ∈ Cell.labels cell)) as [Hin|Hnin].
    + rewrite decide_False by tauto. f_equal.
      rewrite list_filter_filter. apply list_filter_iff.
      intros x. split; [|tauto]. intros Hx. split; [done|]. by intros ->.
    + rewrite decide_True by done. rewrite <-app_assoc. simpl. do 2 f_equal.
      rewrite list_filter_filter. apply list_filter_iff.
      intros x. rewrite not_elem_of_app, list_elem_of_singleton. tauto.
Qed.

Lemma first_occurrences_NoDup ss : NoDup (first_occurrences ss).
Proof.
  induction ss as [|s ss IH]; simpl; [constructor|].
  constructor; [|by apply NoDup_filter].
  rewrite list_elem_of_filter. tauto.
Qed.

Lemma elem_of_first_occurrences x ss : x ∈ first_occurrences ss ↔ x ∈ ss.
Proof.
  induction ss as [|s ss IH]; simpl; [done|].
  rewrite !elem_of_cons, list_elem_of_filter, IH.
  destruct (decide (x = s)); tauto.
Qed.

(** C8: adding a label that is already present changes nothing, adding twice
    is the same as adding once, a label that is absent goes to the end, and
    a cell that starts empty holds, after any sequence of additions, each
    added symbol once, in the order of first addition. *)
Theorem addLabel_idempotent_ordered :
  (∀ s cell, s ∈ Cell.labels cell → Cell.addLabel s cell = cell) ∧
  (∀ s cell, Cell.addLabel s (Cell.addLabel s cell) = Cell.addLabel s cell) ∧
  (∀ s cell, s ∉ Cell.labels cell →
     Cell.labels (Cell.addLabel s cell) = Cell.labels cell ++ [s]) ∧
  (∀ r c ss,
     Cell.labels (foldl (flip Cell.addLabel) (mkCell r c []) ss) = first_occurrences ss ∧
     NoDup (Cell.labels (foldl (flip Cell.addLabel) (mkCell r c []) ss))).
Proof.
  split_and!.
  - apply addLabel_present.
  - intros s cell. apply addLabel_present, elem_of_addLabel. by right.
  - intros s cell Hs. rewrite addLabel_labels. by rewrite decide_False.
  - intros r c ss. rewrite addLabel_fold_labels. simpl.
    rewrite filter_all.
    + split; [done|apply first_occurrences_NoDup].
    + apply Forall_forall. intros x _. apply not_elem_of_nil.
Qed.

Lemma addLabel_idempotent_ordered_witness :
  Cell.addLabel (Terminal "dog") (mkCell 0 1 [Terminal "dog"]) = mkCell 0 1 [Terminal "dog"] ∧
  Cell.labels (Cell.addLabel (Nonterminal "N") (mkCell 0 1 [Terminal "dog"]))
    = [Terminal "dog"; Nonterminal "N"].
Proof.
  destruct addLabel_idempotent_ordered as (H1 & _ & H3 & _). split.
  - apply H1. vm_compute. left.
  - apply (H3 (Nonterminal "N") (mkCell 0 1 [Terminal "dog"])).
    intros H. apply list_elem_of_singleton in H. discriminate.
Defined.

(** ** The rule index *)

Lemma arity_ok_or_bad p : arity_ok p ∨ arity_bad p.
Proof. unfold arity_ok, arity_bad. lia. Qed.

Lemma arity_ok_not_bad p : arity_ok p → ¬ arity_bad p.
Proof. unfold arity_ok, arity_bad. lia. Qed.

Lemma index_production_bad p ub :
  arity_bad p → index_production p ub = Raise AssertionError.
Proof.
  unfold arity_bad, index_production.
  destruct (rhs p) as [|c1 [|c2 [|c3 l]]]; simpl; intros; by try lia.
Qed.

Lemma index_production_ok p ub :
  arity_ok p → ∃ ub', index_production p ub = Ok ub'.
Proof.
  unfold arity_ok, index_production.
  destruct (rhs p) as [|c1 [|c2 [|c3 l]]]; simpl; intros; try lia; eauto.
Qed.

Lemma index_loop_bad ps ub :
  Exists arity_bad ps → for_ ps index_production ub = Raise AssertionError.
Proof.
  revert ub. induction ps as [|p ps IH]; intros ub Hex; [by inversion Hex|].
  simpl. destruct (arity_ok_or_bad p) as [Hok|Hbad].
  - destruct (index_production_ok p ub Hok) as [ub' ->]. apply IH.
    inversion Hex; subst; [by destruct (arity_ok_not_bad p)|done].
  - by rewrite index_production_bad.
Qed.

Lemma index_loop_ok ps ub :
  Forall arity_ok ps → ∃ ub', for_ ps index_production ub = Ok ub'.
Proof.
  revert ub. induction ps as [|p ps IH]; intros ub Hall; simpl; [eauto|].
  inversion Hall as [|? ? Hp Hps]; subst.
  destruct (index_production_ok p ub Hp) as [ub' ->]. by apply IH.
Qed.

Lemma Forall_ok_or_Exists_bad ps : Forall arity_ok ps ∨ Exists arity_bad ps.
Proof.
  induction ps as [|p ps [IH|IH]]; [by left| |by right; right].
  destruct (arity_ok_or_bad p); [left; by constructor|right; by left].
Qed.

Lemma buildIndices_result ps :
  (Forall arity_ok ps ∧ ∃ ub, buildIndices ps = Ok ub) ∨
  (Exists arity_bad ps ∧ buildIndices ps = Raise AssertionError).
Proof.
  destruct (Forall_ok_or_Exists_bad ps) as [H|H].
  - left. split; [done|]. by apply index_loop_ok.
  - right. split; [done|]. by apply index_loop_bad.
Qed.

(** C7: construction raises the assertion's error exactly when some
    production has an empty right-hand side or one longer than two symbols;
    it raises nothing else, and when every right-hand side has one or two
    symbols it returns a recogniser.  The same holds of [buildIndices], the
    step of the constructor that raises: no recogniser exists to call
    [recognise] on unless the index was built. *)
Theorem construction_fails_iff_bad_arity (g : CFG) :
  (CKY_init g = Raise AssertionError ↔ Exists arity_bad (productions g)) ∧
  (buildIndices (productions g) = Raise AssertionError ↔
     Exists arity_bad (productions g)) ∧
  (∀ e, CKY_init g = Raise e → e = AssertionError) ∧
  (Forall arity_ok (productions g) →
     ∃ ub, buildIndices (productions g) = Ok ub ∧
           CKY_init g = Ok (mkCKY false g ub.1 ub.2 [] 0 [])).
Proof.
  unfold CKY_init.
  destruct (buildIndices_result (productions g)) as [[Hok [ub ->]]|[Hbad ->]]; simpl.
  - assert (¬ Exists arity_bad (productions g)) as Hno.
    { intros Hex. apply Exists_exists in Hex as (p & Hp & Hb).
      rewrite Forall_forall in Hok. by destruct (arity_ok_not_bad p (Hok p Hp)). }
    split_and!; [split; [done|tauto]|split; [done|tauto]|done|eauto].
  - split_and!; [done|done|by intros e [= <-]|].
    intros Hok. apply Exists_exists in Hbad as (p & Hp & Hb).
    rewrite Forall_forall in Hok. by destruct (arity_ok_not_bad p (Hok p Hp)).
Qed.

Lemma dd_append_lookup {K : Type} `{Countable K} (k k' : K) v (d : gmap K (list Symbol)) :
  dd_append k v d !! k' =
    if decide (k = k') then Some (default [] (d !! k) ++ [v]) else d !! k'.
Proof. unfold dd_append. by rewrite lookup_insert. Qed.

(** What the loop of [buildIndices] does to an index it starts from. *)
Lemma index_loop_parents ps u0 b0 u b :
  for_ ps index_production (u0, b0) = Ok (u, b) →
  (∀ c, default [] (u !! c) = default [] (u0 !! c) ++ unary_parents ps c ∧
        (is_Some (u !! c) ↔ is_Some (u0 !! c) ∨ unary_parents ps c ≠ [])) ∧
  (∀ c1 c2,
     default [] (b !! (c1, c2)) = default [] (b0 !! (c1, c2)) ++ binary_parents ps c1 c2 ∧
     (is_Some (b !! (c1, c2)) ↔ is_Some (b0 !! (c1, c2)) ∨ binary_parents ps c1 c2 ≠ [])).
Proof.
  revert u0 b0. induction ps as [|p ps IH]; intros u0 b0 Hrun.
  - simpl in Hrun. simplify_eq. unfold unary_parents, binary_parents. simpl.
    split; intros; rewrite app_nil_r; (split; [done|tauto]).
  - simpl in Hrun. unfold index_production in Hrun at 1.
    unfold unary_parents, binary_parents. destruct p as [l r]. simpl in *.
    destruct r as [|c1' [|c2' [|c3' r]]]; simpl in Hrun; try done.
    + apply IH in Hrun as [Hu Hb]. split.
      * intros c. destruct (Hu c) as [-> ->]. rewrite dd_append_lookup, filter_cons.
        unfold unary_parents. destruct (decide (c1' = c)) as [->|Hne].
        -- rewrite decide_True by done. simpl. rewrite <-app_assoc. simpl.
           split; [done|]. split; [|eauto]. intros _. right. done.
        -- rewrite decide_False by (simpl; congruence). done.
      * intros c1 c2. destruct (Hb c1 c2) as [-> ->].
        rewrite filter_cons, decide_False by done. done.
    + apply IH in Hrun as [Hu Hb]. split.
      * intros c. destruct (Hu c) as [-> ->].
        rewrite filter_cons, decide_False by done. done.
      * intros c1 c2. destruct (Hb c1 c2) as [-> ->]. rewrite dd_append_lookup, filter_cons.
        unfold binary_parents. destruct (decide ((c1', c2') = (c1, c2))) as [[= -> ->]|Hne].
        -- rewrite decide_True by done. simpl. rewrite <-app_assoc. simpl.
           split; [done|]. split; [|eauto]. intros _. right. done.
        -- rewrite decide_False by (simpl; congruence). done.
Qed.

(** C9: when every right-hand side has one or two symbols the index is
    built, and it maps a child to the left-hand sides of the unary
    productions with that child, and an ordered pair of children to the
    left-hand sides of the binary productions with that pair, each list in
    the order of the productions and as long as the number of such
    productions, repeated parents included; a key is present exactly when
    some production has it as right-hand side. *)
Theorem buildIndices_parents_in_order (ps : list Production) :
  Forall arity_ok ps →
  ∃ u b, buildIndices ps = Ok (u, b) ∧
    (∀ c, default [] (u !! c) = unary_parents ps c ∧
          (is_Some (u !! c) ↔ unary_parents ps c ≠ [])) ∧
    (∀ c1 c2, default [] (b !! (c1, c2)) = binary_parents ps c1 c2 ∧
          (is_Some (b !! (c1, c2)) ↔ binary_parents ps c1 c2 ≠ [])).
Proof.
  intros Hok. destruct (index_loop_ok ps (∅, ∅) Hok) as [[u b] Hrun].
  exists u, b. split; [done|].
  apply index_loop_parents in Hrun as [Hu Hb]. split.
  - intros c. destruct (Hu c) as [-> ->]. rewrite lookup_empty. simpl.
    split; [done|]. split; [by intros [[]%is_Some_None|]|tauto].
  - intros c1 c2. destruct (Hb c1 c2) as [-> ->]. rewrite lookup_empty. simpl.
    split; [done|]. split; [by intros [[]%is_Some_None|]|tauto].
Qed.

(** Two productions with the same parent and child: the parent is listed
    twice. *)
Lemma buildIndices_parents_in_order_witness :
  ∃ u b,
    buildIndices [mkProduction (Nonterminal "N") [Terminal "dog"];
                  mkProduction (Nonterminal "V") [Terminal "dog"];
                  mkProduction (Nonterminal "N") [Terminal "dog"]] = Ok (u, b) ∧
    default [] (u !! Terminal "dog") = [Nonterminal "N"; Nonterminal "V"; Nonterminal "N"].
Proof.
  destruct (buildIndices_parents_in_order
    [mkProduction (Nonterminal "N") [Terminal "dog"];
     mkProduction (Nonterminal "V") [Terminal "dog"];
     mkProduction (Nonterminal "N") [Terminal "dog"]]) as (u & b & Hrun & Hu & _).
  - repeat constructor.
  - exists u, b. split; [exact Hrun|]. by destruct (Hu (Terminal "dog")) as [-> _].
Defined.

Lemma construction_fails_iff_bad_arity_witness :
  ∃ k, CKY_init (mkCFG (Nonterminal "S")
                   [mkProduction (Nonterminal "S") [Terminal "dog"]]) = Ok k.
Proof.
  destruct (construction_fails_iff_bad_arity
    (mkCFG (Nonterminal "S") [mkProduction (Nonterminal "S") [Terminal "dog"]]))
    as (_ & _ & _ & H).
  destruct H as (ub & _ & Hk).
  - repeat constructor.
  - eexists. exact Hk.
Defined.

(** ** Unary closure *)

Lemma tc_first_step {A : Type} (R : relation A) (x z : A) :
  tc R x z ↔ ∃ y, R x y ∧ rtc R y z.
Proof.
  split.
  - intros [x' z' H|x' y z' H1 H2]; [by exists z'|].
    exists y. split; [done|by apply tc_rtc].
  - intros (y & Hxy & Hyz). by eapply tc_rtc_r; [apply tc_once|].
Qed.

Section unary_closure.
Variable u : gmap Symbol (list Symbol).

Let body (d : nat) : Symbol → Cell → Res Cell :=
  fun parent self => Cell.unaryUpdate d u parent (Cell.addLabel parent self).

Lemma unaryUpdate_unfold d symbol cell :
  Cell.unaryUpdate (S d) u symbol cell =
    match u !! symbol with
    | Some parents => for_ parents (body d) cell
    | None => Ok cell
    end.
Proof. done. Qed.

Lemma closure_of_nil cell : closure_of u [] cell cell.
Proof.
  split_and!; try done. intros x. split; [tauto|].
  intros [?|(p & Hp & _)]; [done|by apply elem_of_nil in Hp].
Qed.

Lemma closure_of_step s roots cell cell1 cell2 :
  closure_of u [s] cell cell1 → closure_of u roots cell1 cell2 →
  closure_of u (s :: roots) cell cell2.
Proof.
  intros (Hr1 & Hc1 & Hp1 & Hn1 & Hx1) (Hr2 & Hc2 & Hp2 & Hn2 & Hx2).
  split_and!; [congruence|congruence|by etrans|tauto|].
  intros x. rewrite Hx2, Hx1. split.
  - intros [[?|(p & ->%list_elem_of_singleton & ?)]|(p & ? & ?)].
    + by left.
    + right. exists s. split; [left|done].
    + right. exists p. split; [by right|done].
  - intros [?|(p & [->|?]%elem_of_cons & ?)].
    + by do 2 left.
    + left. right. exists s. split; [left|done].
    + right. by exists p.
Qed.

(** One turn of the loop: the parent is added, then closed. *)
Lemma closure_of_turn p cell cell' :
  closure_of u (default [] (u !! p)) (Cell.addLabel p cell) cell' →
  closure_of u [p] cell cell'.
Proof.
  intros (Hr & Hc & Hp & Hn & Hx).
  destruct (addLabel_position p cell) as [Hr' Hc'].
  split_and!; [congruence|congruence| | |].
  - etrans; [|done]. rewrite addLabel_labels. case_decide; [done|].
    by apply prefix_app_r.
  - intros. by apply Hn, addLabel_NoDup.
  - intros x. rewrite Hx, elem_of_addLabel. split.
    + intros [[?| ->]|(q & Hq & Hqx)]; [by left| |].
      * right. exists p. split; [left|done].
      * right. exists p. split; [left|]. apply rtc_l with q; [|done].
        destruct (u !! p) as [ps|] eqn:Hlk; [|by apply elem_of_nil in Hq].
        by exists ps.
    + intros [?|(q & ->%list_elem_of_singleton & Hqx)]; [by do 2 left|].
      apply rtc_inv in Hqx as [->|(y & (ps & Hlk & Hy) & Hyx)].
      * left. by right.
      * right. exists y. rewrite Hlk. done.
Qed.

Lemma unaryUpdate_closure d symbol cell cell' :
  Cell.unaryUpdate d u symbol cell = Ok cell' →
  closure_of u (default [] (u !! symbol)) cell cell'.
Proof.
  revert symbol cell cell'. induction d as [|d IH]; intros symbol cell cell'; [done|].
  rewrite unaryUpdate_unfold. destruct (u !! symbol) as [ps|]; simpl.
  - clear symbol. revert cell. induction ps as [|p ps IHps]; intros cell Hrun.
    + simpl in Hrun. simplify_eq. apply closure_of_nil.
    + simpl in Hrun. destruct (body d p cell) as [cell1|] eqn:Hp; [|done].
      apply closure_of_step with cell1; [|by apply IHps].
      by apply closure_of_turn, IH.
  - intros [= <-]. apply closure_of_nil.
Qed.

Lemma unaryUpdate_raises d symbol cell e :
  Cell.unaryUpdate d u symbol cell = Raise e → e = RecursionError.
Proof.
  revert symbol cell. induction d as [|d IH]; intros symbol cell; [by intros [= <-]|].
  rewrite unaryUpdate_unfold. destruct (u !! symbol) as [ps|]; [|done].
  clear symbol. revert cell. induction ps as [|p ps IHps]; intros cell; simpl; [done|].
  destruct (body d p cell) as [cell1|e'] eqn:Hp; [apply IHps|].
  intros [= <-]. by eapply IH.
Qed.

Lemma returns_unfold d symbol :
  returns (S d) u symbol ↔ Forall (returns d u) (default [] (u !! symbol)).
Proof. simpl. destruct (u !! symbol); simpl; [done|]. split; by constructor. Qed.

(** Whether the call returns depends on the symbol and the depth allowed,
    not on the cell. *)
Lemma returns_unaryUpdate d symbol cell :
  returns d u symbol → ∃ cell', Cell.unaryUpdate d u symbol cell = Ok cell'.
Proof.
  revert symbol cell. induction d as [|d IH]; intros symbol cell; [done|].
  rewrite unaryUpdate_unfold. simpl. destruct (u !! symbol) as [ps|]; [|eauto].
  clear symbol. revert cell. induction ps as [|p ps IHps]; intros cell Hall; simpl; [eauto|].
  inversion Hall as [|? ? Hp Hps]; subst.
  destruct (IH p (Cell.addLabel p cell) Hp) as [cell1 Hrun].
  unfold body at 1. rewrite Hrun. by apply IHps.
Qed.

Lemma unaryUpdate_returns d symbol cell cell' :
  Cell.unaryUpdate d u symbol cell = Ok cell' → returns d u symbol.
Proof.
  revert symbol cell cell'. induction d as [|d IH]; intros symbol cell cell'; [done|].
  rewrite unaryUpdate_unfold. simpl. destruct (u !! symbol) as [ps|]; [|done].
  clear symbol. revert cell. induction ps as [|p ps IHps]; intros cell; simpl; [by constructor|].
  destruct (body d p cell) as [cell1|] eqn:Hp; [|done].
  intros Hrun. constructor; [by eapply IH|by eapply IHps].
Qed.

Lemma returns_mono d d' symbol :
  d ≤ d' → returns d u symbol → returns d' u symbol.
Proof.
  revert d' symbol. induction d as [|d IH]; intros d' symbol Hle; [done|].
  destruct d' as [|d']; [lia|]. rewrite !returns_unfold.
  intros Hall. eapply Forall_impl; [done|]. intros p. apply IH. lia.
Qed.

Lemma returns_parent d c p :
  returns d u c → parent_of u c p → returns d u p.
Proof.
  destruct d as [|d]; [done|]. intros Hc (ps & Hlk & Hp).
  apply returns_unfold in Hc. rewrite Hlk in Hc. simpl in Hc.
  rewrite Forall_forall in Hc. apply returns_mono with d; [lia|by apply Hc].
Qed.

Lemma returns_reachable d c x :
  returns d u c → rtc (parent_of u) c x → returns d u x.
Proof. intros Hc Hcx. induction Hcx; eauto using returns_parent. Qed.

(** The result does not depend on the depth allowed, once it is enough. *)
Lemma unaryUpdate_mono d d' symbol cell cell' :
  d ≤ d' → Cell.unaryUpdate d u symbol cell = Ok cell' →
  Cell.unaryUpdate d' u symbol cell = Ok cell'.
Proof.
  revert d' symbol cell cell'. induction d as [|d IH]; intros d' symbol cell cell' Hle; [done|].
  destruct d' as [|d']; [lia|]. rewrite !unaryUpdate_unfold.
  destruct (u !! symbol) as [ps|]; [|done].
  clear symbol. revert cell. induction ps as [|p ps IHps]; intros cell; simpl; [done|].
  destruct (body d p cell) as [cell1|] eqn:Hp; [|done].
  change (body d' p cell) with (Cell.unaryUpdate d' u p (Cell.addLabel p cell)).
  rewrite (IH d' p _ cell1) by (done || lia). apply IHps.
Qed.

(** The call returns for some depth exactly when every chain of unary
    rules upward from the symbol is finite. *)
Lemma returns_sn d symbol : returns d u symbol → sn (parent_of u) symbol.
Proof.
  revert symbol. induction d as [|d IH]; intros symbol Hret; [done|].
  constructor. intros p Hp. apply IH.
  destruct Hp as (ps & Hlk & Hp). apply returns_unfold in Hret.
  rewrite Hlk in Hret. simpl in Hret. rewrite Forall_forall in Hret. by apply Hret.
Qed.

Lemma sn_returns symbol : sn (parent_of u) symbol → ∃ d, returns d u symbol.
Proof.
  induction 1 as [symbol _ IH].
  assert (∀ ps, (∀ p, p ∈ ps → parent_of u symbol p) →
                ∃ d, Forall (returns d u) ps) as Hall.
  { induction ps as [|p ps IHps]; intros Hps; [by exists 0|].
    destruct (IH p) as [d1 H1]; [apply Hps; left|].
    destruct IHps as [d2 H2]; [intros q Hq; apply Hps; by right|].
    exists (d1 `max` d2). constructor.
    - apply returns_mono with d1; [lia|done].
    - eapply Forall_impl; [done|]. intros q. apply returns_mono. lia. }
  destruct (u !! symbol) as [ps|] eqn:Hlk.
  - destruct (Hall ps) as [d Hd]; [intros p Hp; by exists ps|].
    exists (S d). apply returns_unfold. by rewrite Hlk.
  - exists 1. simpl. by rewrite Hlk.
Qed.

Lemma sn_no_cycle symbol x :
  sn (parent_of u) symbol → rtc (parent_of u) symbol x → ¬ tc (parent_of u) x x.
Proof.
  intros Hsn Hreach Hcycle.
  assert (sn (parent_of u) x) as Hx by (by eapply sn_step_rtc).
  clear symbol Hsn Hreach. induction Hx as [x _ IH].
  apply tc_first_step in Hcycle as (y & Hxy & Hyx).
  apply (IH y); [done|]. by eapply tc_rtc_l, tc_once.
Qed.
End unary_closure.

Lemma closure_of_parents u symbol cell cell' :
  closure_of u (default [] (u !! symbol)) cell cell' →
  ∀ x, x ∈ Cell.labels cell' ↔ x ∈ Cell.labels cell ∨ tc (parent_of u) symbol x.
Proof.
  intros (_ & _ & _ & _ & Hx) x. rewrite Hx, tc_first_step.
  unfold parent_of at 2. split; (intros [?|(p & Hp & Hpx)]; [by left|right]).
  - destruct (u !! symbol) as [ps|]; [|by apply elem_of_nil in Hp]. eauto.
  - destruct Hp as (ps & -> & Hp). eauto.
Qed.


Lemma cyclic_index :
  buildIndices (productions cyclic_grammar) =
    Ok (<[Nonterminal "X" := [Nonterminal "Y"]]> (<[Nonterminal "Y" := [Nonterminal "X"]]> ∅), ∅).
Proof. vm_compute. reflexivity. Qed.

(** C2, as stated, fails: on the grammar [X -> Y], [Y -> X] the closure from
    [X] raises [RecursionError] whatever nesting depth is allowed. *)
Lemma unaryUpdate_cycle_never_returns :
  ∃ k, CKY_init cyclic_grammar = Ok k ∧
       ∀ depth cell,
         Cell.unaryUpdate depth (unary k) (Nonterminal "X") cell = Raise RecursionError.
Proof.
  unfold CKY_init. rewrite cyclic_index. eexists. split; [reflexivity|].
  simpl. intros depth cell.
  destruct (Cell.unaryUpdate _ _ _ _) as [cell'|e] eqn:Hrun.
  - exfalso. apply unaryUpdate_returns, returns_sn in Hrun.
    apply (sn_no_cycle _ _ (Nonterminal "X") Hrun); [done|].
    apply tc_l with (Nonterminal "Y"); [|apply tc_once].
    + exists [Nonterminal "Y"]. split; [done|left].
    + exists [Nonterminal "X"]. split; [done|left].
  - f_equal. by eapply unaryUpdate_raises.
Qed.

(** C2, amended: when every chain of unary rules upward from the symbol is
    finite (as it is in a grammar without unary cycles), some nesting depth
    is enough for [unaryUpdate] to return on every cell, and then the cell
    keeps its position and its earlier labels in place, gains exactly the
    symbols reachable from the symbol by one or more unary rules, and
    repeats no label. *)
Theorem unaryUpdate_closure_finite_chains (u : gmap Symbol (list Symbol)) (symbol : Symbol) :
  sn (parent_of u) symbol →
  ∃ depth, ∀ d cell, depth ≤ d →
    ∃ cell', Cell.unaryUpdate d u symbol cell = Ok cell' ∧
      _row cell' = _row cell ∧ _column cell' = _column cell ∧
      Cell.labels cell `prefix_of` Cell.labels cell' ∧
      (NoDup (Cell.labels cell) → NoDup (Cell.labels cell')) ∧
      ∀ x, x ∈ Cell.labels cell' ↔
           x ∈ Cell.labels cell ∨ tc (parent_of u) symbol x.
Proof.
  intros Hsn. destruct (sn_returns u symbol Hsn) as [depth Hret].
  exists depth. intros d cell Hle.
  destruct (returns_unaryUpdate u d symbol cell) as [cell' Hrun].
  { by apply returns_mono with depth. }
  exists cell'. split; [done|].
  pose proof (unaryUpdate_closure u d symbol cell cell' Hrun) as Hcl.
  pose proof (closure_of_parents u symbol cell cell' Hcl) as Hx.
  destruct Hcl as (? & ? & ? & ? & _). done.
Qed.

Lemma chain_index :
  buildIndices (productions chain_grammar) = Ok (chain_unary, ∅).
Proof. vm_compute. reflexivity. Qed.

Lemma chain_unary_sn : sn (parent_of chain_unary) (Terminal "dog").
Proof.
  constructor. intros p (ps & Hlk & Hp).
  vm_compute in Hlk. injection Hlk as <-. apply list_elem_of_singleton in Hp as ->.
  constructor. intros p (ps & Hlk & Hp).
  vm_compute in Hlk. injection Hlk as <-. apply list_elem_of_singleton in Hp as ->.
  constructor. intros p (ps & Hlk & Hp).
  vm_compute in Hlk. discriminate.
Defined.

Lemma unaryUpdate_closure_finite_chains_witness :
  ∃ depth, ∀ d cell, depth ≤ d →
    ∃ cell', Cell.unaryUpdate d chain_unary (Terminal "dog") cell = Ok cell' ∧
      _row cell' = _row cell ∧ _column cell' = _column cell ∧
      Cell.labels cell `prefix_of` Cell.labels cell' ∧
      (NoDup (Cell.labels cell) → NoDup (Cell.labels cell')) ∧
      ∀ x, x ∈ Cell.labels cell' ↔
           x ∈ Cell.labels cell ∨ tc (parent_of chain_unary) (Terminal "dog") x.
Proof.
  apply (unaryUpdate_closure_finite_chains chain_unary (Terminal "dog")).
  exact chain_unary_sn.
Defined.

(** ** Reading and writing cells of the chart *)

Lemma matrix_at_cell self r c cell :
  cell_at self r c = Some cell → matrix_at self r c = Ok (Some cell).
Proof.
  unfold cell_at, matrix_at, getitem. destruct (matrix self !! r) as [row|]; [|done].
  simpl. destruct (row !! c) as [entry|]; [|done]. by intros ->.
Qed.

Lemma read_cell self r c cell :
  matrix_at self r c ≫= deref = Ok cell ↔ cell_at self r c = Some cell.
Proof.
  unfold cell_at, matrix_at, getitem. destruct (matrix self !! r) as [row|]; [|done].
  simpl. destruct (row !! c) as [[cell'|]|]; simpl; [|done..].
  split; by intros [= ->].
Qed.

Lemma store_cell_fields r c cell self :
  verbose (store_cell r c cell self) = verbose self ∧
  grammar (store_cell r c cell self) = grammar self ∧
  unary (store_cell r c cell self) = unary self ∧
  binary (store_cell r c cell self) = binary self ∧
  words (store_cell r c cell self) = words self ∧
  n (store_cell r c cell self) = n self.
Proof. unfold store_cell. by destruct (matrix self !! r). Qed.

Lemma cell_at_store r c cell cell' self r' c' :
  cell_at self r c = Some cell →
  cell_at (store_cell r c cell' self) r' c' =
    if decide (r = r' ∧ c = c') then Some cell' else cell_at self r' c'.
Proof.
  unfold cell_at, store_cell.
  destruct (matrix self !! r) as [row|] eqn:Hrow; [|done].
  destruct (row !! c) as [entry|] eqn:Hc; [|done]. intros ->. simpl.
  apply lookup_lt_Some in Hrow as Hr. apply lookup_lt_Some in Hc as Hlt.
  rewrite list_lookup_insert. case_decide as Hrr.
  - destruct Hrr as [<- _]. rewrite list_lookup_insert. case_decide as Hcc.
    + destruct Hcc as [<- _]. by rewrite decide_True.
    + rewrite decide_False by tauto. by rewrite Hrow.
  - rewrite decide_False by tauto. done.
Qed.

Lemma store_cell_same r c cell self :
  cell_at self r c = Some cell → store_cell r c cell self = self.
Proof.
  unfold cell_at, store_cell.
  destruct (matrix self !! r) as [row|] eqn:Hrow; [|done].
  destruct (row !! c) as [entry|] eqn:Hc; [|done]. intros ->.
  rewrite (list_insert_id row), (list_insert_id (matrix self)) by done.
  by destruct self.
Qed.

Lemma store_cell_twice r c cell1 cell2 self :
  store_cell r c cell2 (store_cell r c cell1 self) = store_cell r c cell2 self.
Proof.
  unfold store_cell.
  destruct (matrix self !! r) as [row|] eqn:Hrow; simpl; [|by rewrite Hrow].
  apply lookup_lt_Some in Hrow as Hr.
  rewrite list_lookup_insert_eq by done. unfold set_matrix. simpl.
  by rewrite !list_insert_insert_eq.
Qed.

Lemma wf_chart_store r c cell cell' self :
  cell_at self r c = Some cell → wf_chart self → wf_chart (store_cell r c cell' self).
Proof.
  intros Hcell Hwf r' c'. rewrite (cell_at_store _ _ cell) by done.
  destruct (store_cell_fields r c cell' self) as (_ & _ & _ & _ & _ & ->).
  case_decide as Heq; [|apply Hwf].
  destruct Heq as [<- <-]. split; [|by eauto].
  intros _. apply Hwf. rewrite Hcell. by eauto.
Qed.

Lemma call_cell_at r c method self cell :
  cell_at self r c = Some cell →
  call_cell r c method self =
    cell' ← method cell; Ok (store_cell r c cell' self).
Proof.
  intros Hcell. unfold call_cell. by rewrite (matrix_at_cell _ _ _ _ Hcell).
Qed.

(** The two method calls [cell.addLabel(s)] and [cell.unaryUpdate(s)] on the
    cell object at [(r, c)] amount to one step on that cell. *)
Lemma add_then_close limit r c s self cell :
  cell_at self r c = Some cell →
  (self' ← call_cell r c (fun cell => Ok (Cell.addLabel s cell)) self;
   call_cell r c (Cell.unaryUpdate limit (unary self') s) self') =
  cell' ← add_and_close limit (unary self) s cell; Ok (store_cell r c cell' self).
Proof.
  intros Hcell. rewrite (call_cell_at _ _ _ _ cell) by done. simpl.
  rewrite (call_cell_at _ _ _ _ (Cell.addLabel s cell)).
  - destruct (store_cell_fields r c (Cell.addLabel s cell) self) as (_ & _ & -> & _).
    unfold add_and_close. destruct (Cell.unaryUpdate _ _ _ _); simpl; [|done].
    by rewrite store_cell_twice.
  - rewrite (cell_at_store _ _ cell) by done. by rewrite decide_True.
Qed.

Lemma lookup_range a b i :
  range a b !! i = if decide (i < b - a) then Some (a + i) else None.
Proof.
  unfold range. case_decide; [by apply lookup_seq_lt|apply lookup_seq_ge; lia].
Qed.

Lemma elem_of_range a b i : i ∈ range a b ↔ a ≤ i < b.
Proof. unfold range. rewrite elem_of_seq. lia. Qed.

(** The chart that [recognise] starts from. *)
Lemma cell_at_init tokens v self r c :
  cell_at (recognise_init tokens v self) r c =
    if decide (r < c < length tokens + 1) then Some (mkCell r c []) else None.
Proof.
  unfold cell_at, recognise_init, new_matrix, new_row. simpl.
  rewrite list_lookup_fmap, lookup_range.
  destruct (decide (r < length tokens + 1 - 1 - 0)) as [Hr|Hr]; simpl.
  - rewrite list_lookup_fmap, lookup_range.
    destruct (decide (c < length tokens + 1 - 0)) as [Hc|Hc]; simpl.
    + destruct (decide (r < c)); [by rewrite decide_True by lia|by rewrite decide_False by lia].
    + by rewrite decide_False by lia.
  - by rewrite decide_False by lia.
Qed.

Lemma wf_chart_init tokens v self : wf_chart (recognise_init tokens v self).
Proof.
  intros r c. rewrite cell_at_init. simpl. by case_decide.
Qed.

Lemma call_cell_ret r c self cell :
  cell_at self r c = Some cell → call_cell r c Ok self = Ok self.
Proof.
  intros Hcell. rewrite (call_cell_at _ _ _ _ cell) by done. simpl.
  by rewrite (store_cell_same _ _ cell).
Qed.

Lemma call_cell_Ok r c method self self' :
  call_cell r c method self = Ok self' ↔
  ∃ cell cell', cell_at self r c = Some cell ∧ method cell = Ok cell' ∧
                self' = store_cell r c cell' self.
Proof.
  split.
  - unfold call_cell. intros Hrun.
    destruct (matrix_at self r c ≫= deref) as [cell|] eqn:Hread.
    + apply read_cell in Hread as Hcell.
      rewrite (matrix_at_cell _ _ _ _ Hcell) in Hrun. simpl in Hrun.
      destruct (method cell) as [cell'|] eqn:Hm; [|done]. simpl in Hrun.
      exists cell, cell'. by simplify_eq.
    + destruct (matrix_at self r c) as [[cell|]|]; simpl in *; done.
  - intros (cell & cell' & Hcell & Hm & ->).
    rewrite (call_cell_at _ _ _ _ cell) by done. by rewrite Hm.
Qed.

Lemma call_cell_Raise r c method self cell e :
  cell_at self r c = Some cell →
  call_cell r c method self = Raise e → method cell = Raise e.
Proof.
  intros Hcell. rewrite (call_cell_at _ _ _ _ cell) by done.
  destruct (method cell); simpl; intros; by simplify_eq.
Qed.

Lemma call_cell_ext r c method1 method2 self :
  (∀ cell, method1 cell = method2 cell) →
  call_cell r c method1 self = call_cell r c method2 self.
Proof.
  intros Hext. unfold call_cell.
  destruct (matrix_at self r c) as [[cell|]|]; simpl; [|done..]. by rewrite Hext.
Qed.

(** A loop whose every turn is a method call on one and the same cell is a
    single call of the loop of those methods. *)
Lemma for_call_cell {A : Type} (Inv : CKY → Prop) r c
    (l : list A) (body : A → CKY → Res CKY) (method : A → Cell → Res Cell) self cell :
  (∀ x self cell, x ∈ l → Inv self → cell_at self r c = Some cell →
     body x self = call_cell r c (method x) self) →
  (∀ self cell cell', Inv self → cell_at self r c = Some cell →
     Inv (store_cell r c cell' self)) →
  Inv self → cell_at self r c = Some cell →
  for_ l body self = call_cell r c (for_ l method) self.
Proof.
  intros Hbody Hinv. revert self cell.
  induction l as [|x l IH]; intros self cell HI Hcell.
  - simpl. by rewrite (call_cell_ret _ _ _ cell).
  - simpl. rewrite (Hbody x self cell), !(call_cell_at _ _ _ _ cell) by (done || left).
    destruct (method x cell) as [cell1|] eqn:Hx; simpl; [|done].
    rewrite (IH (fun y s t Hy => Hbody y s t (list_elem_of_further _ _ _ Hy))
                (store_cell r c cell1 self) cell1).
    + rewrite (call_cell_at _ _ _ _ cell1).
      * destruct (for_ l method cell1); simpl; [|done]. by rewrite store_cell_twice.
      * rewrite (cell_at_store _ _ cell) by done. by rewrite decide_True.
    + by eapply Hinv.
    + rewrite (cell_at_store _ _ cell) by done. by rewrite decide_True.
Qed.

Lemma for_bind {A B S : Type} (l : list A) (f : A → list B) (body : B → S → Res S) s :
  for_ (l ≫= f) body s = for_ l (fun x => for_ (f x) body) s.
Proof.
  revert s. induction l as [|x l IH]; intros s; [done|].
  simpl. rewrite for_app. destruct (for_ (f x) body s); simpl; [apply IH|done].
Qed.

(** A build attempt is one method call on the cell [(start, end)]: the loop
    of add-and-close steps over the parents of the label pairs. *)
Lemma maybeBuild_cells limit start mid end_ self left right cell :
  cell_at self start mid = Some left →
  cell_at self mid end_ = Some right →
  cell_at self start end_ = Some cell →
  start ≠ mid →
  maybeBuild limit start mid end_ self =
    call_cell start end_
      (for_ (build_parents (binary self) (Cell.labels left) (Cell.labels right))
            (add_and_close limit (unary self)))
      self.
Proof.
  intros Hleft Hright Hcell Hne. unfold maybeBuild.
  rewrite (matrix_at_cell _ _ _ _ Hcell), (matrix_at_cell _ _ _ _ Hleft). simpl.
  unfold build_parents.
  set (u := unary self). set (b := binary self).
  rewrite (for_call_cell
    (fun s => unary s = u ∧ binary s = b ∧ cell_at s mid end_ = Some right)
    start end_ _ _
    (fun s1 => for_ (s2 ← Cell.labels right; default [] (b !! (s1, s2)))
                    (add_and_close limit u)) self cell); try done.
  - apply call_cell_ext. intros cell0. by rewrite for_bind.
  - intros s1 self1 cell1 _ (Hu & Hb & Hr) Hc1.
    rewrite (matrix_at_cell _ _ _ _ Hr). simpl.
    rewrite (for_call_cell (fun s => unary s = u ∧ binary s = b) start end_ _ _
      (fun s2 => for_ (default [] (b !! (s1, s2))) (add_and_close limit u))
      self1 cell1); try done.
    + apply call_cell_ext. intros cell0. by rewrite for_bind.
    + intros s2 self2 cell2 _ (Hu2 & Hb2) Hc2. rewrite Hb2.
      destruct (b !! (s1, s2)) as [ps|]; simpl; [|by rewrite (call_cell_ret _ _ _ cell2)].
      rewrite (for_call_cell (fun s => unary s = u) start end_ _ _
        (add_and_close limit u) self2 cell2); try done.
      * intros s self3 cell3 _ Hu3 Hc3. rewrite <-Hu3.
        rewrite (add_then_close limit start end_ s self3 cell3 Hc3).
        by rewrite (call_cell_at _ _ _ _ cell3).
      * intros self3 cell3 cell3' Hu3 _. by rewrite (proj1 (proj2 (proj2 (store_cell_fields _ _ _ _)))).
    + intros self2 cell2 cell2' (Hu2 & Hb2) _.
      destruct (store_cell_fields start end_ cell2' self2) as (_ & _ & -> & -> & _). done.
  - intros self1 cell1 cell1' (Hu1 & Hb1 & Hr1) Hc1.
    destruct (store_cell_fields start end_ cell1' self1) as (_ & _ & -> & -> & _).
    split_and!; [done..|]. rewrite (cell_at_store _ _ cell1) by done.
    by rewrite decide_False by tauto.
Qed.

(** ** What the methods leave unchanged *)

Lemma frame_refl self : frame self self.
Proof. by repeat split. Qed.

Lemma frame_trans self1 self2 self3 :
  frame self1 self2 → frame self2 self3 → frame self1 self3.
Proof. unfold frame. intros (?&?&?&?&?&?) (?&?&?&?&?&?). split_and!; congruence. Qed.

Lemma frame_n self self' : frame self self' → n self' = n self.
Proof. by intros (_ & _ & _ & _ & _ & ?). Qed.

Lemma store_cell_frame r c cell self : frame self (store_cell r c cell self).
Proof. apply store_cell_fields. Qed.

Lemma call_cell_frame r c method self self' :
  call_cell r c method self = Ok self' → frame self self'.
Proof. intros (cell & cell' & _ & _ & ->)%call_cell_Ok. apply store_cell_frame. Qed.

Lemma for_frame {A : Type} (l : list A) (body : A → CKY → Res CKY) self self' :
  (∀ x t t', body x t = Ok t' → frame t t') →
  for_ l body self = Ok self' → frame self self'.
Proof.
  intros Hbody. apply (for_invariant (frame self)); [|apply frame_refl].
  intros x t t' _ Ht Hx. eapply frame_trans; [done|by eapply Hbody].
Qed.

Lemma maybeBuild_frame limit start mid end_ self self' :
  maybeBuild limit start mid end_ self = Ok self' → frame self self'.
Proof.
  unfold maybeBuild. destruct (matrix_at self start end_); simpl; [|done].
  destruct (matrix_at self start mid) as [[left|]|]; simpl; try done.
  apply for_frame. intros s1 t t'.
  destruct (matrix_at t mid end_) as [[right|]|]; simpl; try done.
  apply for_frame. intros s2 t2 t2'.
  destruct (binary t2 !! (s1, s2)); [|intros [= <-]; apply frame_refl].
  apply for_frame. intros s t3 t3' (t4 & H4 & H5)%bind_Ok.
  eapply frame_trans; by eapply call_cell_frame.
Qed.

Lemma for_ext_inv {A S : Type} (I : S → Prop) (l : list A) (body1 body2 : A → S → Res S) s :
  (∀ x t, x ∈ l → I t → body1 x t = body2 x t) →
  (∀ x t t', x ∈ l → I t → body1 x t = Ok t' → I t') →
  I s → for_ l body1 s = for_ l body2 s.
Proof.
  revert s. induction l as [|x l IH]; intros s Hext Hinv Hs; simpl; [done|].
  rewrite <-(Hext x s) by (done || left).
  destruct (body1 x s) as [t|] eqn:Hx; [|done].
  apply IH.
  - intros y t' Hy. apply Hext. by right.
  - intros y t' t'' Hy. apply Hinv. by right.
  - eapply Hinv; [left|done..].
Qed.

(** ** The order of the binary scan *)

Lemma binaryScan_visits limit self :
  binaryScan limit self =
    for_ (scan_visits (n self))
         (fun v => maybeBuild limit v.1.1 v.1.2 v.2) self.
Proof.
  unfold binaryScan, scan_visits. rewrite for_bind.
  apply (for_ext_inv (fun t => n t = n self)); [| |done].
  - intros span t _ Ht. rewrite Ht, for_bind.
    apply (for_ext_inv (fun t => n t = n self)); [| |done].
    + intros start t1 _ Ht1. rewrite for_bind. apply for_ext.
      intros mid t2 _. simpl. by destruct (maybeBuild _ _ _ _ _).
    + intros start t1 t1' _ Ht1 Hrun. rewrite <-Ht1. apply frame_n.
      apply (for_frame _ _ _ _ (fun mid => maybeBuild_frame limit start mid _) Hrun).
  - intros span t t' _ Ht Hrun. rewrite <-Ht. apply frame_n.
    apply (for_frame _ _ _ _) in Hrun; [done|].
    intros start t1 t1'.
    apply (for_frame _ _ _ _ (fun mid => maybeBuild_frame limit start mid _)).
Qed.

Lemma elem_of_scan_visits N start mid end_ :
  (start, mid, end_) ∈ scan_visits N ↔
  2 ≤ end_ - start ∧ end_ ≤ N - 1 ∧ start < mid < end_.
Proof.
  unfold scan_visits. rewrite list_elem_of_bind. split.
  - intros (span & Hin & Hspan%elem_of_range).
    apply list_elem_of_bind in Hin as (start' & Hin & Hstart%elem_of_range).
    apply list_elem_of_bind in Hin as (mid' & Hin & Hmid%elem_of_range).
    apply list_elem_of_singleton in Hin as [= -> -> ->]. lia.
  - intros (Hspan & Hend & Hmid). exists (end_ - start).
    split; [|apply elem_of_range; lia].
    apply list_elem_of_bind. exists start. split; [|apply elem_of_range; lia].
    apply list_elem_of_bind. exists mid. split; [|apply elem_of_range; lia].
    apply list_elem_of_singleton. f_equal. lia.
Qed.

Lemma StronglySorted_bind_seq {B : Type} (R : relation B) (f : nat → list B) a len :
  (∀ i, a ≤ i < a + len → StronglySorted R (f i)) →
  (∀ i j x y, a ≤ i < j → j < a + len → x ∈ f i → y ∈ f j → R x y) →
  StronglySorted R (seq a len ≫= f).
Proof.
  revert a. induction len as [|len IH]; intros a Hin Hout; [constructor|].
  simpl. apply StronglySorted_app. split_and!.
  - intros x y Hx (j & Hy & Hj%elem_of_seq)%list_elem_of_bind.
    apply (Hout a j); [lia|lia|done..].
  - apply Hin. lia.
  - apply IH.
    + intros i Hi. apply Hin. lia.
    + intros i j x y Hi Hj. apply Hout; lia.
Qed.

Lemma scan_visits_sorted N : StronglySorted visit_lt (scan_visits N).
Proof.
  unfold scan_visits, range. apply StronglySorted_bind_seq.
  - intros span Hspan. apply StronglySorted_bind_seq.
    + intros start Hstart. apply StronglySorted_bind_seq.
      * intros mid Hmid. repeat constructor.
      * intros i j x y Hi Hj ->%list_elem_of_singleton ->%list_elem_of_singleton.
        simpl. lia.
    + intros i j x y Hi Hj.
      intros (mi & ->%list_elem_of_singleton & _)%list_elem_of_bind.
      intros (mj & ->%list_elem_of_singleton & _)%list_elem_of_bind.
      simpl. lia.
  - intros i j x y Hi Hj.
    intros (si & (mi & ->%list_elem_of_singleton & _)%list_elem_of_bind & _)%list_elem_of_bind.
    intros (sj & (mj & ->%list_elem_of_singleton & _)%list_elem_of_bind & _)%list_elem_of_bind.
    simpl. lia.
Qed.

(** ** Adding and closing *)

Lemma add_and_close_closure limit u s cell cell' :
  add_and_close limit u s cell = Ok cell' → closure_of u [s] cell cell'.
Proof. intros Hrun. by apply closure_of_turn, (unaryUpdate_closure u limit). Qed.

Lemma add_and_close_loop limit u roots cell cell' :
  for_ roots (add_and_close limit u) cell = Ok cell' → closure_of u roots cell cell'.
Proof.
  revert cell. induction roots as [|s roots IH]; intros cell Hrun; simpl in Hrun.
  - simplify_eq. apply closure_of_nil.
  - destruct (add_and_close limit u s cell) as [cell1|] eqn:Hs; [|done].
    apply closure_of_step with cell1; [by eapply add_and_close_closure|by apply IH].
Qed.

Lemma add_and_close_raises limit u s cell e :
  add_and_close limit u s cell = Raise e → e = RecursionError.
Proof. apply unaryUpdate_raises. Qed.

Lemma add_and_close_loop_raises limit u roots cell e :
  for_ roots (add_and_close limit u) cell = Raise e → e = RecursionError.
Proof.
  revert cell. induction roots as [|s roots IH]; intros cell; simpl; [done|].
  destruct (add_and_close limit u s cell) as [cell1|e'] eqn:Hs; [apply IH|].
  intros [= <-]. by eapply add_and_close_raises.
Qed.

Lemma add_and_close_returns limit u s cell :
  returns limit u s → ∃ cell', add_and_close limit u s cell = Ok cell'.
Proof. apply returns_unaryUpdate. Qed.

Lemma stable_loop limit u P roots cell cell' :
  stable limit u P → P cell →
  for_ roots (add_and_close limit u) cell = Ok cell' → P cell'.
Proof.
  intros Hst. apply for_invariant. intros s t t' _. apply Hst.
Qed.

Lemma stable_NoDup limit u : stable limit u (fun cell => NoDup (Cell.labels cell)).
Proof.
  intros s cell cell' Hnd Hrun.
  apply add_and_close_closure in Hrun as (_ & _ & _ & Hkeep & _). by apply Hkeep.
Qed.

Lemma stable_closed limit u : stable limit u (closed_within limit u).
Proof.
  intros s cell cell' [Hcl Hret] Hrun.
  pose proof (unaryUpdate_returns u _ _ _ _ Hrun) as Hs.
  apply add_and_close_closure in Hrun as (_ & _ & _ & _ & Hx). split.
  - intros l p. rewrite !Hx.
    intros [Hl|(q & ->%list_elem_of_singleton & Hq)] Hp.
    + left. by eapply Hcl.
    + right. exists s. split; [left|]. by eapply rtc_r.
  - intros l. rewrite Hx. intros [Hl|(q & ->%list_elem_of_singleton & Hq)].
    + by apply Hret.
    + by eapply returns_reachable.
Qed.

(** Closing a closed cell again, from one of its labels, changes nothing. *)
Lemma unaryUpdate_closed d u l cell :
  unary_closed u cell → l ∈ Cell.labels cell → returns d u l →
  Cell.unaryUpdate d u l cell = Ok cell.
Proof.
  intros Hcl. revert l. induction d as [|d IH]; intros l Hl Hret; [done|].
  rewrite unaryUpdate_unfold. apply returns_unfold in Hret.
  assert (∀ p, p ∈ default [] (u !! l) → p ∈ Cell.labels cell) as Hps.
  { intros p Hp. apply (Hcl l p Hl).
    destruct (u !! l) as [ps|] eqn:Hlk; [by exists ps|by apply elem_of_nil in Hp]. }
  destruct (u !! l) as [ps|]; [|done]. simpl in *.
  induction ps as [|p ps IHps]; [done|]. simpl.
  inversion Hret as [|? ? Hp Hrest]; subst.
  rewrite addLabel_present by (apply Hps; left).
  rewrite IH; [|apply Hps; left|done].
  apply IHps; [done|]. intros q Hq. apply Hps. by right.
Qed.

(** ** Invariants of the chart *)

Lemma frame_chart_ok self self' :
  frame self self' → wf_chart self' → chart_ok self → chart_ok self'.
Proof.
  intros (_ & _ & _ & _ & Hw & Hn) Hwf [_ Hlen]. split; [done|]. congruence.
Qed.

Lemma call_cell_chart P r c method self self' :
  (∀ cell cell', P cell → method cell = Ok cell' → P cell') →
  chart_ok self → cells_satisfy P self →
  call_cell r c method self = Ok self' →
  chart_ok self' ∧ frame self self' ∧ cells_satisfy P self'.
Proof.
  intros Hm Hok HP (cell & cell' & Hcell & Hrun & ->)%call_cell_Ok.
  split_and!.
  - apply (frame_chart_ok self); [apply store_cell_frame| |done].
    apply (wf_chart_store _ _ cell); [done|apply Hok].
  - apply store_cell_frame.
  - intros r' c' cell0. rewrite (cell_at_store _ _ cell) by done.
    case_decide; [|apply HP]. intros [= <-]. eapply Hm; [|done]. by eapply HP.
Qed.

Lemma call_cell_others r c method self self' r' c' :
  call_cell r c method self = Ok self' → (r, c) ≠ (r', c') →
  cell_at self' r' c' = cell_at self r' c'.
Proof.
  intros (cell & cell' & Hcell & Hrun & ->)%call_cell_Ok Hne.
  rewrite (cell_at_store _ _ cell) by done. rewrite decide_False; [done|].
  intros [-> ->]. done.
Qed.

(** In a well-formed chart every visit of the scan finds its three cells. *)
Lemma maybeBuild_in_chart limit start mid end_ self :
  wf_chart self → start < mid < end_ → end_ < n self →
  ∃ left right cell,
    cell_at self start mid = Some left ∧
    cell_at self mid end_ = Some right ∧
    cell_at self start end_ = Some cell ∧
    maybeBuild limit start mid end_ self =
      call_cell start end_
        (for_ (build_parents (binary self) (Cell.labels left) (Cell.labels right))
              (add_and_close limit (unary self)))
        self.
Proof.
  intros Hwf Hmid Hend.
  destruct (proj2 (Hwf start mid)) as [left Hleft]; [lia|].
  destruct (proj2 (Hwf mid end_)) as [right Hright]; [lia|].
  destruct (proj2 (Hwf start end_)) as [cell Hcell]; [lia|].
  exists left, right, cell. split_and!; [done..|].
  apply (maybeBuild_cells _ _ _ _ _ _ _ cell); [done..|lia].
Qed.

Lemma maybeBuild_chart P limit start mid end_ self self' :
  stable limit (unary self) P →
  chart_ok self → cells_satisfy P self →
  start < mid < end_ → end_ < n self →
  maybeBuild limit start mid end_ self = Ok self' →
  chart_ok self' ∧ frame self self' ∧ cells_satisfy P self'.
Proof.
  intros Hst Hok HP Hmid Hend.
  destruct (maybeBuild_in_chart limit start mid end_ self) as (l & r & c & _ & _ & _ & ->);
    [apply Hok|done..|].
  apply call_cell_chart; [|done..]. intros cell cell'. by apply stable_loop.
Qed.

Lemma maybeBuild_raises limit start mid end_ self e :
  wf_chart self → start < mid < end_ → end_ < n self →
  maybeBuild limit start mid end_ self = Raise e → e = RecursionError.
Proof.
  intros Hwf Hmid Hend.
  destruct (maybeBuild_in_chart limit start mid end_ self) as (l & r & c & _ & _ & Hc & ->);
    [done..|].
  intros Hrun. apply (call_cell_Raise _ _ _ _ c) in Hrun; [|done].
  by eapply add_and_close_loop_raises.
Qed.

(** A loop that keeps an invariant raises only what some turn raises from a
    state that satisfies the invariant. *)
Lemma for_raises {A S : Type} (I : S → Prop) (Q : exn → Prop)
    (l : list A) (body : A → S → Res S) s e :
  (∀ x t t', x ∈ l → I t → body x t = Ok t' → I t') →
  (∀ x t e, x ∈ l → I t → body x t = Raise e → Q e) →
  I s → for_ l body s = Raise e → Q e.
Proof.
  revert s. induction l as [|x l IH]; intros s Hinv Hq Hs; simpl; [done|].
  destruct (body x s) as [t|e'] eqn:Hx.
  - apply IH.
    + intros y t1 t2 Hy. apply Hinv. by right.
    + intros y t1 e1 Hy. apply Hq. by right.
    + eapply Hinv; [left|done..].
  - intros [= <-]. eapply Hq; [left|done..].
Qed.

Section scan.
Variables (P : Cell → Prop) (limit : nat) (self : CKY).
Hypothesis P_stable : stable limit (unary self) P.

Let I (t : CKY) : Prop := chart_ok t ∧ frame self t ∧ cells_satisfy P t.

Lemma scan_turn v t t' :
  v ∈ scan_visits (n self) → I t →
  maybeBuild limit v.1.1 v.1.2 v.2 t = Ok t' → I t'.
Proof.
  destruct v as [[start mid] end_]. simpl.
  intros (_ & Hend & Hmid)%elem_of_scan_visits (Hok & Hfr & HP) Hrun.
  pose proof Hfr as (_ & _ & Hu & _ & _ & Hn).
  destruct (maybeBuild_chart P limit start mid end_ t t') as (Hok' & Hfr' & HP');
    [by rewrite Hu|done|done|done|lia|done|].
  split_and!; [done| |done]. by eapply frame_trans.
Qed.

Lemma binaryScan_chart self' :
  chart_ok self → cells_satisfy P self →
  binaryScan limit self = Ok self' →
  chart_ok self' ∧ frame self self' ∧ cells_satisfy P self'.
Proof.
  intros Hok HP. rewrite binaryScan_visits.
  apply (for_invariant I); [apply scan_turn|].
  split_and!; [done|apply frame_refl|done].
Qed.

Lemma binaryScan_raises e :
  chart_ok self → cells_satisfy P self →
  binaryScan limit self = Raise e → e = RecursionError.
Proof.
  intros Hok HP. rewrite binaryScan_visits.
  apply (for_raises I (fun e => e = RecursionError));
    [apply scan_turn| |split_and!; [done|apply frame_refl|done]].
  intros [[start mid] end_] t e' (_ & Hend & Hmid)%elem_of_scan_visits ([Hwf _] & Hfr & _).
  simpl. apply maybeBuild_raises; [done..|]. rewrite (frame_n _ _ Hfr). lia.
Qed.
End scan.

(** ** The diagonal fill *)

Lemma unaryFill_turn_cell limit r self cell w :
  cell_at self r (r + 1) = Some cell → words self !! r = Some w →
  unaryFill_turn limit r self =
    call_cell r (r + 1) (add_and_close limit (unary self) (Terminal w)) self.
Proof.
  intros Hcell Hw. unfold unaryFill_turn, getitem.
  rewrite (matrix_at_cell _ _ _ _ Hcell), Hw. simpl.
  by rewrite (call_cell_at _ _ _ _ cell).
Qed.

Lemma unaryFill_turn_in_chart limit r self :
  chart_ok self → r < length (words self) →
  ∃ cell w, cell_at self r (r + 1) = Some cell ∧ words self !! r = Some w ∧
    unaryFill_turn limit r self =
      call_cell r (r + 1) (add_and_close limit (unary self) (Terminal w)) self.
Proof.
  intros [Hwf Hn] Hr.
  destruct (proj2 (Hwf r (r + 1))) as [cell Hcell]; [lia|].
  destruct (lookup_lt_is_Some_2 (words self) r Hr) as [w Hw].
  exists cell, w. split_and!; [done..|]. by apply (unaryFill_turn_cell _ _ _ cell).
Qed.

(** The effect of the turns for a list of distinct rows. *)
Lemma unaryFill_rows P limit rows self self' :
  stable limit (unary self) P →
  chart_ok self → cells_satisfy P self →
  NoDup rows → (∀ r, r ∈ rows → r < length (words self)) →
  for_ rows (unaryFill_turn limit) self = Ok self' →
  chart_ok self' ∧ frame self self' ∧ cells_satisfy P self' ∧
  (∀ r, r ∈ rows →
     ∃ w cell cell', words self !! r = Some w ∧ cell_at self r (r + 1) = Some cell ∧
       add_and_close limit (unary self) (Terminal w) cell = Ok cell' ∧
       cell_at self' r (r + 1) = Some cell') ∧
  (∀ r c, ¬ (r ∈ rows ∧ c = r + 1) → cell_at self' r c = cell_at self r c).
Proof.
  intros Hst. revert self Hst.
  induction rows as [|r rows IH]; intros self Hst Hok HP Hnd Hlt Hrun; simpl in Hrun.
  - simplify_eq. split_and!; [done|apply frame_refl|done| |done].
    intros r Hr. by apply elem_of_nil in Hr.
  - destruct (unaryFill_turn limit r self) as [t|] eqn:Hturn; [|done].
    apply NoDup_cons in Hnd as [Hr Hnd].
    destruct (unaryFill_turn_in_chart limit r self) as (cell & w & Hcell & Hw & Heq);
      [done|apply Hlt; left|].
    rewrite Heq in Hturn.
    destruct (call_cell_chart P _ _ _ _ _ (Hst (Terminal w)) Hok HP Hturn) as (Hok1 & Hfr1 & HP1).
    pose proof Hfr1 as (_ & _ & Hu & _ & Hwords & _).
    destruct (IH t) as (Hok2 & Hfr2 & HP2 & Hrows & Hother); try done.
    { by rewrite Hu. }
    { intros r' Hr'. rewrite Hwords. apply Hlt. by right. }
    split_and!; [done|by eapply frame_trans|done| |].
    + intros r' [->|Hr']%elem_of_cons.
      * apply call_cell_Ok in Hturn as (cell0 & cell' & Hcell0 & Hrun0 & ->).
        rewrite Hcell in Hcell0. injection Hcell0 as <-.
        exists w, cell, cell'. split_and!; [done..|].
        rewrite Hother by tauto. rewrite (cell_at_store _ _ cell) by done.
        by rewrite decide_True.
      * destruct (Hrows r' Hr') as (w' & c1 & c1' & Hw' & Hc1 & Hrun1 & Hc1').
        exists w', c1, c1'. rewrite <-Hwords, <-Hu. split_and!; [done| |done..].
        rewrite <-Hc1. symmetry. eapply call_cell_others; [done|].
        intros [= -> _]. done.
    + intros r' c' Hno. rewrite Hother by (rewrite elem_of_cons in Hno; tauto).
      eapply call_cell_others; [done|]. intros [= -> <-]. apply Hno. split; [left|done].
Qed.

Lemma unaryFill_rows_raises P limit rows self e :
  stable limit (unary self) P →
  chart_ok self → cells_satisfy P self →
  (∀ r, r ∈ rows → r < length (words self)) →
  for_ rows (unaryFill_turn limit) self = Raise e → e = RecursionError.
Proof.
  intros Hst Hok HP Hlt.
  apply (for_raises (fun t => chart_ok t ∧ frame self t ∧ cells_satisfy P t)
                    (fun e => e = RecursionError)).
  - intros r t t' Hr (Hok1 & Hfr1 & HP1) Hturn.
    pose proof Hfr1 as (_ & _ & Hu & _ & Hwords & _).
    destruct (unaryFill_turn_in_chart limit r t) as (cell & w & Hcell & Hw & Heq);
      [done|rewrite Hwords; by apply Hlt|].
    rewrite Heq in Hturn.
    rewrite Hu in Hturn.
    destruct (call_cell_chart P _ _ _ _ _ (Hst (Terminal w)) Hok1 HP1 Hturn)
      as (Hok2 & Hfr2 & HP2).
    split_and!; [done|by eapply frame_trans|done].
  - intros r t e' Hr (Hok1 & Hfr1 & HP1) Hturn.
    pose proof Hfr1 as (_ & _ & Hu & _ & Hwords & _).
    destruct (unaryFill_turn_in_chart limit r t) as (cell & w & Hcell & Hw & Heq);
      [done|rewrite Hwords; by apply Hlt|].
    rewrite Heq in Hturn. apply (call_cell_Raise _ _ _ _ cell) in Hturn; [|done].
    by eapply add_and_close_raises.
  - split_and!; [done|apply frame_refl|done].
Qed.

(** ** The whole chart *)

Lemma chart_ok_init tokens v self : chart_ok (recognise_init tokens v self).
Proof. split; [apply wf_chart_init|done]. Qed.

Lemma cells_satisfy_init P tokens v self :
  (∀ r c, P (mkCell r c [])) → cells_satisfy P (recognise_init tokens v self).
Proof.
  intros HP r c cell. rewrite cell_at_init. case_decide; [|done]. by intros [= <-].
Qed.

Lemma unaryFill_chart P limit self self' :
  stable limit (unary self) P → chart_ok self → cells_satisfy P self →
  unaryFill limit self = Ok self' →
  chart_ok self' ∧ frame self self' ∧ cells_satisfy P self'.
Proof.
  intros Hst Hok HP Hrun.
  destruct (unaryFill_rows P limit (range 0 (n self - 1)) self self' Hst Hok HP)
    as (? & ? & ? & _); [apply NoDup_seq| |done|done].
  intros r Hr%elem_of_range. destruct Hok as [_ Hn]. lia.
Qed.

Lemma unaryFill_raises P limit self e :
  stable limit (unary self) P → chart_ok self → cells_satisfy P self →
  unaryFill limit self = Raise e → e = RecursionError.
Proof.
  intros Hst Hok HP. apply (unaryFill_rows_raises P); [done..|].
  intros r Hr%elem_of_range. destruct Hok as [_ Hn]. lia.
Qed.

Lemma fill_chart_inv P limit tokens self self' :
  stable limit (unary self) P → (∀ r c, P (mkCell r c [])) →
  fill_chart limit tokens self = Ok self' →
  chart_ok self' ∧ frame (recognise_init tokens false self) self' ∧ cells_satisfy P self'.
Proof.
  intros Hst HP (self1 & Hfill & Hscan)%bind_Ok.
  destruct (unaryFill_chart P limit (recognise_init tokens false self) self1 Hst
              (chart_ok_init _ _ _) (cells_satisfy_init P _ _ _ HP) Hfill)
    as (Hok1 & Hfr1 & HP1).
  pose proof Hfr1 as (_ & _ & Hu & _).
  destruct (binaryScan_chart P limit self1) with (self' := self') as (Hok2 & Hfr2 & HP2);
    [by rewrite Hu|done..|].
  split_and!; [done|by eapply frame_trans|done].
Qed.

Lemma fill_chart_raises limit tokens self e :
  fill_chart limit tokens self = Raise e → e = RecursionError.
Proof.
  unfold fill_chart.
  destruct (unaryFill limit (recognise_init tokens false self)) as [self1|e1] eqn:Hfill; simpl.
  - destruct (unaryFill_chart (fun _ => True) limit (recognise_init tokens false self)
                self1 (fun _ _ _ _ _ => I)
                (chart_ok_init _ _ _) (fun _ _ _ _ => I) Hfill) as (Hok1 & _ & HP1).
    by apply (binaryScan_raises (fun _ => True)).
  - intros [= <-].
    by apply (unaryFill_raises (fun _ => True) limit (recognise_init tokens false self)
                _ (fun _ _ _ _ _ => I) (chart_ok_init _ _ _) (fun _ _ _ _ => I) Hfill).
Qed.

(** The top cell exists whenever there is a word. *)
Lemma top_cell tokens self self' :
  tokens ≠ [] → chart_ok self' → frame (recognise_init tokens false self) self' →
  n self' = length tokens + 1 ∧ ∃ top, cell_at self' 0 (n self' - 1) = Some top.
Proof.
  intros Hne [Hwf _] (_ & _ & _ & _ & _ & Hn). simpl in Hn. split; [done|].
  apply Hwf. destruct tokens; [done|]. simpl in *. lia.
Qed.

Lemma recognise_Ok limit tokens self out self' :
  recognise limit tokens self = Ok (out, self') ↔
  fill_chart limit tokens self = Ok self' ∧
  ∃ top, cell_at self' 0 (n self' - 1) = Some top ∧
    out = if decide (start (grammar self') ∉ Cell.labels top)
          then ret_False else ret_int (length (Cell.labels top)).
Proof.
  unfold recognise. destruct (fill_chart limit tokens self) as [self1|]; simpl; [|split; [done|by intros [? _]]].
  destruct (matrix_at self1 0 (n self1 - 1) ≫= deref) as [top|] eqn:Hread.
  - apply read_cell in Hread as Hcell. rewrite (matrix_at_cell _ _ _ _ Hcell). simpl.
    split.
    + intros Hout. assert (self1 = self') as ->.
      { by destruct (decide _); simplify_eq. }
      split; [done|]. exists top. split; [done|]. by destruct (decide _); simplify_eq.
    + intros [[= ->] (top' & Htop & ->)]. simplify_eq. by destruct (decide _).
  - assert (cell_at self1 0 (n self1 - 1) = None) as Hnone.
    { destruct (cell_at self1 0 (n self1 - 1)) as [c|] eqn:Hc; [|done].
      apply read_cell in Hc. congruence. }
    split.
    + destruct (matrix_at self1 0 (n self1 - 1)) as [[c|]|]; simpl in *; done.
    + intros [[= ->] (top & Htop & _)]. congruence.
Qed.

(** ** The result of [recognise] *)

Lemma stable_True limit u : stable limit u (fun _ => True).
Proof. done. Qed.

Lemma recognise_raises limit tokens self e :
  tokens ≠ [] → recognise limit tokens self = Raise e → e = RecursionError.
Proof.
  intros Hne. unfold recognise.
  destruct (fill_chart limit tokens self) as [self'|e'] eqn:Hfill; simpl.
  - destruct (fill_chart_inv (fun _ => True) limit tokens self self') as (Hok & Hfr & _);
      [done..|].
    destruct (top_cell tokens self self' Hne Hok Hfr) as [_ [top Htop]].
    rewrite (matrix_at_cell _ _ _ _ Htop). simpl. by destruct (decide _).
  - intros [= <-]. by eapply fill_chart_raises.
Qed.

(** C1: on a sentence of at least one word [recognise] either exhausts the
    nesting depth inside a unary closure, or returns; when it returns, the
    cell of row 0 and column [n - 1] exists and repeats no label, the
    result is [False] exactly when the start symbol is not a label of that
    cell, and otherwise it is the number of distinct labels of that cell. *)
Theorem recognise_reports_top_cell (limit : nat) (tokens : list string) (self : CKY) :
  tokens ≠ [] →
  recognise limit tokens self = Raise RecursionError ∨
  ∃ self' top out,
    recognise limit tokens self = Ok (out, self') ∧
    fill_chart limit tokens self = Ok self' ∧
    n self' = length tokens + 1 ∧
    cell_at self' 0 (n self' - 1) = Some top ∧
    NoDup (Cell.labels top) ∧
    (out = ret_False ↔ start (grammar self) ∉ Cell.labels top) ∧
    (start (grammar self) ∈ Cell.labels top →
       out = ret_int (size (list_to_set (Cell.labels top) : gset Symbol))).
Proof.
  intros Hne. destruct (recognise limit tokens self) as [[out self']|e] eqn:Hrun.
  - right. apply recognise_Ok in Hrun as Hrun'. destruct Hrun' as (Hfill & top & Htop & Hout).
    destruct (fill_chart_inv (fun cell => NoDup (Cell.labels cell)) limit tokens self self')
      as (Hok & Hfr & Hnd); [apply stable_NoDup|intros; constructor|done|].
    destruct (top_cell tokens self self' Hne Hok Hfr) as [Hn _].
    pose proof Hfr as (_ & Hg & _). simpl in Hg. rewrite Hg in Hout.
    exists self', top, out. split_and!; [done..|by eapply Hnd| |].
    + rewrite Hout. by destruct (decide _).
    + intros Hin. rewrite Hout, decide_False by tauto.
      f_equal. symmetry. apply size_list_to_set. by eapply Hnd.
  - left. f_equal. by eapply recognise_raises.
Qed.

Lemma dog_recogniser : CKY_init dog_grammar = Ok (recogniser dog_grammar).
Proof. vm_compute. reflexivity. Qed.

Lemma recognise_reports_top_cell_witness :
  recognise 10 ["the"; "dog"; "barks"] (recogniser dog_grammar) = Raise RecursionError ∨
  ∃ self' top out,
    recognise 10 ["the"; "dog"; "barks"] (recogniser dog_grammar) = Ok (out, self') ∧
    fill_chart 10 ["the"; "dog"; "barks"] (recogniser dog_grammar) = Ok self' ∧
    n self' = 3 + 1 ∧
    cell_at self' 0 (n self' - 1) = Some top ∧
    NoDup (Cell.labels top) ∧
    (out = ret_False ↔ start (grammar (recogniser dog_grammar)) ∉ Cell.labels top) ∧
    (start (grammar (recogniser dog_grammar)) ∈ Cell.labels top →
       out = ret_int (size (list_to_set (Cell.labels top) : gset Symbol))).
Proof.
  apply (recognise_reports_top_cell 10 ["the"; "dog"; "barks"] (recogniser dog_grammar)).
  discriminate.
Defined.

(** C10: a count that [recognise] returns is the length of a label list that
    holds the start symbol, so it is at least 1; the result is never the
    integer 0. *)
Theorem recognise_count_positive (limit : nat) (tokens : list string)
    (self self' : CKY) (k : nat) :
  recognise limit tokens self = Ok (ret_int k, self') →
  1 ≤ k ∧ k ≠ 0 ∧
  ∃ top, cell_at self' 0 (n self' - 1) = Some top ∧
         start (grammar self) ∈ Cell.labels top ∧ k = length (Cell.labels top).
Proof.
  intros (Hfill & top & Htop & Hout)%recognise_Ok.
  destruct (fill_chart_inv (fun _ => True) limit tokens self self') as (_ & Hfr & _);
    [done..|].
  pose proof Hfr as (_ & Hg & _). simpl in Hg. rewrite Hg in Hout.
  destruct (decide (start (grammar self) ∉ Cell.labels top)) as [|Hin]; [done|].
  injection Hout as ->. apply dec_stable in Hin.
  assert (1 ≤ length (Cell.labels top)).
  { destruct (Cell.labels top); [by apply elem_of_nil in Hin|simpl; lia]. }
  split_and!; [lia|lia|]. by exists top.
Qed.

Lemma recognise_count_positive_witness :
  ∃ self',
    recognise 10 ["the"; "dog"; "barks"] (recogniser dog_grammar) = Ok (ret_int 1, self') ∧
    1 ≤ 1 ∧ 1 ≠ 0 ∧
    ∃ top, cell_at self' 0 (n self' - 1) = Some top ∧
           start (grammar (recogniser dog_grammar)) ∈ Cell.labels top ∧
           1 = length (Cell.labels top).
Proof.
  eexists. assert (recognise 10 ["the"; "dog"; "barks"] (recogniser dog_grammar)
                   = Ok (ret_int 1, _)) as Hrun by (vm_compute; reflexivity).
  split; [exact Hrun|].
  exact (recognise_count_positive _ _ _ _ _ Hrun).
Defined.

(** C3 fails on the code: with no token the matrix has no row, and the
    lookup of [matrix[0]] raises [IndexError] for every grammar. *)
Theorem recognise_empty_raises (limit : nat) (self : CKY) :
  recognise limit [] self = Raise IndexError.
Proof. reflexivity. Qed.

(** C6: when [recognise] returns, every cell of the chart holds the parents
    of its labels, and running the closure again on a cell from any of its
    labels returns the cell as it is. *)
Theorem recognise_cells_closed (limit : nat) (tokens : list string)
    (self self' : CKY) (out : outcome) :
  recognise limit tokens self = Ok (out, self') →
  ∀ r c cell, cell_at self' r c = Some cell →
    (∀ label parents parent,
       label ∈ Cell.labels cell → unary self' !! label = Some parents →
       parent ∈ parents → parent ∈ Cell.labels cell) ∧
    (∀ label, label ∈ Cell.labels cell →
       Cell.unaryUpdate limit (unary self') label cell = Ok cell ∧
       add_and_close limit (unary self') label cell = Ok cell).
Proof.
  intros (Hfill & _)%recognise_Ok r c cell Hcell.
  destruct (fill_chart_inv (closed_within limit (unary self)) limit tokens self self')
    as (_ & Hfr & Hcl); [apply stable_closed| |done|].
  { intros r' c'. split; [intros l p Hl|intros l Hl]; by apply elem_of_nil in Hl. }
  pose proof Hfr as (_ & _ & Hu & _). simpl in Hu. rewrite Hu.
  destruct (Hcl r c cell Hcell) as [Hclosed Hret]. split.
  - intros label parents parent Hl Hlk Hp. apply (Hclosed label); [done|by exists parents].
  - intros label Hl. unfold add_and_close. rewrite addLabel_present by done.
    split; apply unaryUpdate_closed; auto.
Qed.

Lemma recognise_cells_closed_witness :
  ∃ self', recognise 10 ["dog"] (recogniser chain_grammar) = Ok (ret_int 3, self') ∧
    ∀ r c cell, cell_at self' r c = Some cell →
      (∀ label parents parent,
         label ∈ Cell.labels cell → unary self' !! label = Some parents →
         parent ∈ parents → parent ∈ Cell.labels cell) ∧
      (∀ label, label ∈ Cell.labels cell →
         Cell.unaryUpdate 10 (unary self') label cell = Ok cell ∧
         add_and_close 10 (unary self') label cell = Ok cell).
Proof.
  eexists. assert (recognise 10 ["dog"] (recogniser chain_grammar)
                   = Ok (ret_int 3, _)) as Hrun by (vm_compute; reflexivity).
  split; [exact Hrun|].
  exact (recognise_cells_closed _ _ _ _ _ Hrun).
Defined.

(** ** The diagonal fill and the binary scan, as the chart sees them *)

Lemma for_progress {A S : Type} (I : S → Prop) (l : list A) (body : A → S → Res S) s :
  (∀ x t, x ∈ l → I t → ∃ t', body x t = Ok t' ∧ I t') →
  I s → ∃ s', for_ l body s = Ok s'.
Proof.
  revert s. induction l as [|x l IH]; intros s Hbody Hs; simpl; [eauto|].
  destruct (Hbody x s) as (t & -> & Ht); [left|done|].
  apply IH; [|done]. intros y t' Hy. apply Hbody. by right.
Qed.

Lemma unaryFill_returns limit self :
  chart_ok self →
  Forall (fun w => returns limit (unary self) (Terminal w)) (words self) →
  ∃ self', unaryFill limit self = Ok self'.
Proof.
  intros Hok Hret. unfold unaryFill.
  apply (for_progress (fun t => chart_ok t ∧ frame self t)); [|by split; [|apply frame_refl]].
  intros r t Hr%elem_of_range [Hok1 Hfr1].
  pose proof Hfr1 as (_ & _ & Hu & _ & Hwords & _).
  destruct (unaryFill_turn_in_chart limit r t) as (cell & w & Hcell & Hw & ->);
    [done|destruct Hok as [_ Hn]; rewrite Hwords; lia|].
  rewrite (call_cell_at _ _ _ _ cell) by done.
  destruct (add_and_close_returns limit (unary t) (Terminal w) cell) as [cell' Hrun].
  { rewrite Hu. rewrite Forall_forall in Hret. apply Hret.
    rewrite <-Hwords. by eapply list_elem_of_lookup_2. }
  rewrite Hrun. simpl. eexists. split; [done|]. split.
  - apply (frame_chart_ok t); [apply store_cell_frame| |done].
    apply (wf_chart_store _ _ cell); [done|apply Hok1].
  - eapply frame_trans; [done|apply store_cell_frame].
Qed.

(** C5: [recognise] runs the diagonal fill on the fresh chart and the binary
    scan on what the fill returns.  When the fill returns, the cell
    [(r, r + 1)] of each row is the fresh cell to which the token of
    position [r] was added and which was then closed from that token, so
    its labels are the token and what unary rules reach from it; no other
    cell has changed.  The fill returns exactly when the closure from every
    token stays within the nesting depth. *)
Theorem unaryFill_diagonal (limit : nat) (tokens : list string) (self : CKY) :
  fill_chart limit tokens self =
    unaryFill limit (recognise_init tokens false self) ≫= binaryScan limit ∧
  (∀ self1, unaryFill limit (recognise_init tokens false self) = Ok self1 →
     frame (recognise_init tokens false self) self1 ∧
     (∀ r w, tokens !! r = Some w →
        ∃ cell',
          add_and_close limit (unary self) (Terminal w) (mkCell r (r + 1) []) = Ok cell' ∧
          cell_at self1 r (r + 1) = Some cell' ∧
          ∀ x, x ∈ Cell.labels cell' ↔ rtc (parent_of (unary self)) (Terminal w) x) ∧
     (∀ r c, c ≠ r + 1 →
        cell_at self1 r c = cell_at (recognise_init tokens false self) r c)) ∧
  (Forall (fun w => returns limit (unary self) (Terminal w)) tokens ↔
   ∃ self1, unaryFill limit (recognise_init tokens false self) = Ok self1).
Proof.
  set (self0 := recognise_init tokens false self).
  assert (∀ self1, unaryFill limit self0 = Ok self1 →
     frame self0 self1 ∧
     (∀ r w, tokens !! r = Some w →
        ∃ cell',
          add_and_close limit (unary self) (Terminal w) (mkCell r (r + 1) []) = Ok cell' ∧
          cell_at self1 r (r + 1) = Some cell' ∧
          ∀ x, x ∈ Cell.labels cell' ↔ rtc (parent_of (unary self)) (Terminal w) x) ∧
     (∀ r c, c ≠ r + 1 → cell_at self1 r c = cell_at self0 r c)) as Hfill.
  { intros self1 Hrun.
    destruct (unaryFill_rows (fun _ => True) limit (range 0 (n self0 - 1)) self0 self1)
      as (_ & Hfr & _ & Hrows & Hother);
      [done|apply chart_ok_init|done|apply NoDup_seq| |done|].
    { intros r Hr%elem_of_range. simpl in *. lia. }
    split_and!; [done| |].
    - intros r w Hw. apply lookup_lt_Some in Hw as Hr.
      destruct (Hrows r) as (w' & cell & cell' & Hw' & Hcell & Hadd & Hcell').
      { apply elem_of_range. simpl. lia. }
      simpl in Hw'. rewrite Hw in Hw'. injection Hw' as <-.
      unfold self0 in Hcell. rewrite cell_at_init, decide_True in Hcell by lia.
      injection Hcell as <-. exists cell'. split_and!; [done..|].
      apply add_and_close_closure in Hadd as (_ & _ & _ & _ & Hx).
      intros x. rewrite Hx. simpl. split.
      + intros [[]%elem_of_nil|(p & ->%list_elem_of_singleton & Hp)]. done.
      + intros Hp. right. exists (Terminal w). split; [left|done].
    - intros r c Hc. apply Hother. tauto. }
  split_and!; [done|done|]. split.
  - intros Hret. by apply unaryFill_returns; [apply chart_ok_init|].
  - intros [self1 Hrun]. destruct (Hfill self1 Hrun) as (_ & Hrows & _).
    apply Forall_forall. intros w (r & Hw)%list_elem_of_lookup_1.
    destruct (Hrows r w Hw) as (cell' & Hadd & _).
    by apply unaryUpdate_returns in Hadd.
Qed.

Lemma unaryFill_diagonal_witness :
  ∃ self1, unaryFill 10 (recognise_init ["dog"] false (recogniser chain_grammar)) = Ok self1 ∧
    frame (recognise_init ["dog"] false (recogniser chain_grammar)) self1 ∧
    (∀ r w, ["dog"] !! r = Some w →
       ∃ cell',
         add_and_close 10 (unary (recogniser chain_grammar)) (Terminal w)
           (mkCell r (r + 1) []) = Ok cell' ∧
         cell_at self1 r (r + 1) = Some cell' ∧
         ∀ x, x ∈ Cell.labels cell' ↔
              rtc (parent_of (unary (recogniser chain_grammar))) (Terminal w) x) ∧
    (∀ r c, c ≠ r + 1 →
       cell_at self1 r c =
         cell_at (recognise_init ["dog"] false (recogniser chain_grammar)) r c).
Proof.
  eexists.
  assert (unaryFill 10 (recognise_init ["dog"] false (recogniser chain_grammar)) = Ok _)
    as Hrun by (vm_compute; reflexivity).
  split; [exact Hrun|].
  exact (proj1 (proj2 (unaryFill_diagonal 10 ["dog"] (recogniser chain_grammar))) _ Hrun).
Defined.

Lemma elem_of_build_parents b l1 l2 p :
  p ∈ build_parents b l1 l2 ↔
  ∃ s1 s2 parents, s1 ∈ l1 ∧ s2 ∈ l2 ∧ b !! (s1, s2) = Some parents ∧ p ∈ parents.
Proof.
  unfold build_parents. rewrite list_elem_of_bind. split.
  - intros (s1 & (s2 & Hp & Hs2)%list_elem_of_bind & Hs1).
    destruct (b !! (s1, s2)) as [ps|] eqn:Hlk; [|by apply elem_of_nil in Hp].
    by exists s1, s2, ps.
  - intros (s1 & s2 & ps & Hs1 & Hs2 & Hlk & Hp). exists s1. split; [|done].
    apply list_elem_of_bind. exists s2. split; [|done]. by rewrite Hlk.
Qed.

(** C4: [binaryScan] is the loop of [maybeBuild] over the positions
    [(start, mid, end)] with a span from 2 to [n - 1], [end = start + span]
    at most [n - 1] and [mid] strictly between, taken by increasing span,
    then start, then split point.  In a chart with its cells above the
    diagonal each such build attempt is one update of the cell
    [(start, end)]: for every left label, every right label and every parent
    that the binary index lists for the pair, in this order, the parent is
    added and the cell closed from it.  When the attempt returns, the cell
    [(start, end)] holds its earlier labels and what unary rules reach from
    those parents, and no other cell has changed. *)
Theorem binaryScan_builds (limit : nat) (self : CKY) :
  binaryScan limit self =
    for_ (scan_visits (n self)) (fun v => maybeBuild limit v.1.1 v.1.2 v.2) self ∧
  StronglySorted visit_lt (scan_visits (n self)) ∧
  (∀ start mid end_,
     (start, mid, end_) ∈ scan_visits (n self) ↔
     2 ≤ end_ - start ∧ end_ ≤ n self - 1 ∧ start < mid < end_) ∧
  (∀ t start mid end_,
     wf_chart t → n t = n self → (start, mid, end_) ∈ scan_visits (n self) →
     ∃ left right cell,
       cell_at t start mid = Some left ∧
       cell_at t mid end_ = Some right ∧
       cell_at t start end_ = Some cell ∧
       maybeBuild limit start mid end_ t =
         call_cell start end_
           (for_ (build_parents (binary t) (Cell.labels left) (Cell.labels right))
                 (add_and_close limit (unary t))) t ∧
       ∀ t', maybeBuild limit start mid end_ t = Ok t' →
         wf_chart t' ∧ frame t t' ∧
         (∀ r c, (r, c) ≠ (start, end_) → cell_at t' r c = cell_at t r c) ∧
         ∃ cell', cell_at t' start end_ = Some cell' ∧
           for_ (build_parents (binary t) (Cell.labels left) (Cell.labels right))
                (add_and_close limit (unary t)) cell = Ok cell' ∧
           ∀ x, x ∈ Cell.labels cell' ↔
                x ∈ Cell.labels cell ∨
                ∃ s1 s2 parents p,
                  s1 ∈ Cell.labels left ∧ s2 ∈ Cell.labels right ∧
                  binary t !! (s1, s2) = Some parents ∧ p ∈ parents ∧
                  rtc (parent_of (unary t)) p x).
Proof.
  split_and!.
  - apply binaryScan_visits.
  - apply scan_visits_sorted.
  - apply elem_of_scan_visits.
  - intros t start mid end_ Hwf Hn (_ & Hend & Hmid)%elem_of_scan_visits.
    destruct (maybeBuild_in_chart limit start mid end_ t)
      as (left & right & cell & Hleft & Hright & Hcell & Heq); [done|done|lia|].
    exists left, right, cell. split_and!; [done..|].
    intros t' Hrun. rewrite Heq in Hrun.
    pose proof (call_cell_frame _ _ _ _ _ Hrun) as Hfr.
    pose proof (fun r c => call_cell_others _ _ _ _ _ r c Hrun) as Hother.
    apply call_cell_Ok in Hrun as (cell0 & cell' & Hcell0 & Hloop & ->).
    rewrite Hcell in Hcell0. injection Hcell0 as <-.
    split_and!; [by apply (wf_chart_store _ _ cell)|done| |].
    { intros r c Hne. apply Hother. congruence. }
    exists cell'. split_and!; [|done|].
    + rewrite (cell_at_store _ _ cell) by done. by rewrite decide_True.
    + apply add_and_close_loop in Hloop as (_ & _ & _ & _ & Hx).
      intros x. rewrite Hx. split; (intros [?|Hp]; [by left|right]).
      * destruct Hp as (p & (s1 & s2 & ps & ? & ? & ? & ?)%elem_of_build_parents & ?).
        by exists s1, s2, ps, p.
      * destruct Hp as (s1 & s2 & ps & p & ? & ? & ? & ? & ?).
        exists p. split; [|done]. apply elem_of_build_parents. by exists s1, s2, ps.
Qed.

Lemma binaryScan_builds_witness :
  ∃ t t' left right cell cell',
    unaryFill 10 (recognise_init ["the"; "dog"; "barks"] false (recogniser dog_grammar)) = Ok t ∧
    maybeBuild 10 1 2 3 t = Ok t' ∧
    cell_at t 1 2 = Some left ∧
    cell_at t 2 3 = Some right ∧
    cell_at t 1 3 = Some cell ∧
    wf_chart t' ∧ frame t t' ∧
    cell_at t' 1 3 = Some cell' ∧
    ∀ x, x ∈ Cell.labels cell' ↔
         x ∈ Cell.labels cell ∨
         ∃ s1 s2 parents p,
           s1 ∈ Cell.labels left ∧ s2 ∈ Cell.labels right ∧
           binary t !! (s1, s2) = Some parents ∧ p ∈ parents ∧
           rtc (parent_of (unary t)) p x.
Proof.
  destruct (unaryFill 10 (recognise_init ["the"; "dog"; "barks"] false
                            (recogniser dog_grammar))) as [t|] eqn:Hfill;
    [|vm_compute in Hfill; discriminate].
  destruct (unaryFill_chart (fun _ => True) 10 _ t (stable_True _ _)
              (chart_ok_init _ _ _) (fun _ _ _ _ => I) Hfill) as ([Hwf _] & Hfr & _).
  destruct (maybeBuild 10 1 2 3 t) as [t'|] eqn:Hbuild.
  - destruct (proj2 (proj2 (proj2 (binaryScan_builds 10 t))) t 1 2 3)
      as (left & right & cell & H1 & H2 & H3 & _ & Hpost).
    + exact Hwf.
    + reflexivity.
    + apply elem_of_scan_visits. rewrite (frame_n _ _ Hfr). simpl. lia.
    + destruct (Hpost t' Hbuild) as (Hwf' & Hfr' & _ & cell' & Hc' & _ & Hx).
      exists t, t', left, right, cell, cell'. split_and!; done.
  - exfalso. vm_compute in Hfill. injection Hfill as <-.
    vm_compute in Hbuild. discriminate.
Defined.

(** ** Termination *)






(** ** The examples *)

Example derivable_the_dog_barks :
  fst <$> recognise 10 ["the"; "dog"; "barks"] (recogniser dog_grammar) = Ok (ret_int 1).
Proof. vm_compute. reflexivity. Qed.

Example not_derivable_dog_barks_the :
  fst <$> recognise 10 ["dog"; "barks"; "the"] (recogniser dog_grammar) = Ok ret_False.
Proof. vm_compute. reflexivity. Qed.

Example single_token_dog :
  fst <$> recognise 10 ["dog"] (recogniser chain_grammar) = Ok (ret_int 3).
Proof. vm_compute. reflexivity. Qed.

(** A unary cycle that no word reaches does no harm; one that a word
    reaches uses up any nesting depth, here the interpreter's default. *)
Example cycle_not_reached :
  fst <$> recognise 1000 ["X"] (recogniser cyclic_grammar) = Ok ret_False.
Proof. vm_compute. reflexivity. Qed.

Example cycle_reached :
  recognise 1000 ["a"] (recogniser cyclic_word_grammar) = Raise RecursionError.
Proof. vm_compute. reflexivity. Qed.

(** ** Slices of the sentence *)

Lemma slice_length tokens r c :
  c ≤ length tokens → length (slice tokens r c) = c - r.
Proof. intros Hc. unfold slice. rewrite length_take, length_drop. lia. Qed.

Lemma slice_app tokens r m c :
  r ≤ m ≤ c → slice tokens r m ++ slice tokens m c = slice tokens r c.
Proof.
  intros Hm. unfold slice.
  replace (drop m tokens) with (drop (m - r) (drop r tokens))
    by (rewrite drop_drop; f_equal; lia).
  rewrite take_take_drop. f_equal. lia.
Qed.

Lemma slice_word tokens r w :
  tokens !! r = Some w → slice tokens r (r + 1) = [w].
Proof.
  intros Hw. unfold slice. replace (r + 1 - r) with 1 by lia.
  rewrite (drop_S _ _ _ Hw). done.
Qed.

Lemma slice_all tokens : slice tokens 0 (length tokens) = tokens.
Proof. unfold slice. rewrite drop_0, Nat.sub_0_r. by apply take_ge. Qed.

Lemma slice_word_inv tokens r c w :
  r < c ≤ length tokens → slice tokens r c = [w] →
  c = r + 1 ∧ tokens !! r = Some w.
Proof.
  intros Hc Hs. pose proof (slice_length tokens r c (proj2 Hc)) as Hlen.
  rewrite Hs in Hlen. simpl in Hlen. assert (c = r + 1) as -> by lia.
  split; [done|].
  destruct (lookup_lt_is_Some_2 tokens r) as [w' Hw']; [lia|].
  rewrite (slice_word _ _ _ Hw') in Hs. by simplify_eq.
Qed.

Lemma slice_split tokens r c ws1 ws2 :
  r ≤ c ≤ length tokens → slice tokens r c = ws1 ++ ws2 →
  slice tokens r (r + length ws1) = ws1 ∧ slice tokens (r + length ws1) c = ws2 ∧
  length ws1 + length ws2 = c - r.
Proof.
  intros [Hr Hc] Hs. pose proof (slice_length tokens r c Hc) as Hlen.
  rewrite Hs, length_app in Hlen.
  rewrite <-(slice_app tokens r (r + length ws1) c) in Hs by lia.
  apply app_inj_1 in Hs; [by destruct Hs|].
  rewrite slice_length; lia.
Qed.

(** ** Derivations and the indices *)

Lemma derives_nonempty ps s ws : derives ps s ws → 1 ≤ length ws.
Proof.
  induction 1 as [w|p c ws _ _ IH|p c1 c2 ws1 ws2 _ _ IH1 _ IH2]; simpl; [lia|done|].
  rewrite length_app. lia.
Qed.

Lemma elem_of_unary_parents ps c p :
  p ∈ unary_parents ps c ↔ mkProduction p [c] ∈ ps.
Proof.
  unfold unary_parents. rewrite list_elem_of_fmap. split.
  - intros ([l r] & -> & [Hr Hin]%list_elem_of_filter). simpl in *. by subst.
  - intros Hin. exists (mkProduction p [c]). split; [done|].
    by apply list_elem_of_filter.
Qed.

Lemma elem_of_binary_parents ps c1 c2 p :
  p ∈ binary_parents ps c1 c2 ↔ mkProduction p [c1; c2] ∈ ps.
Proof.
  unfold binary_parents. rewrite list_elem_of_fmap. split.
  - intros ([l r] & -> & [Hr Hin]%list_elem_of_filter). simpl in *. by subst.
  - intros Hin. exists (mkProduction p [c1; c2]). split; [done|].
    by apply list_elem_of_filter.
Qed.

Lemma buildIndices_indexes ps u b :
  buildIndices ps = Ok (u, b) → indexes ps u b.
Proof.
  intros [Hu Hb]%index_loop_parents. split.
  - intros c p. rewrite <-elem_of_unary_parents.
    destruct (Hu c) as [Hc _]. rewrite lookup_empty in Hc. simpl in Hc. rewrite <-Hc.
    unfold parent_of. destruct (u !! c) as [ps'|]; simpl.
    + split; [by intros (? & [= <-] & ?)|eauto].
    + split; [by intros (? & [=] & _)|by intros ?%elem_of_nil].
  - intros c1 c2 p. rewrite <-elem_of_binary_parents.
    destruct (Hb c1 c2) as [Hc _]. rewrite lookup_empty in Hc. simpl in Hc. rewrite <-Hc.
    destruct (b !! (c1, c2)) as [ps'|]; simpl.
    + split; [by intros (? & [= <-] & ?)|eauto].
    + split; [by intros (? & [=] & _)|by intros ?%elem_of_nil].
Qed.

Lemma CKY_init_indexes g self :
  CKY_init g = Ok self →
  grammar self = g ∧ indexes (productions g) (unary self) (binary self).
Proof.
  unfold CKY_init. destruct (buildIndices (productions g)) as [[u b]|] eqn:Hix; [|done].
  simpl. intros [= <-]. split; [done|]. by apply buildIndices_indexes.
Qed.

Lemma derives_reachable ps u b s x ws :
  indexes ps u b → rtc (parent_of u) s x → derives ps s ws → derives ps x ws.
Proof.
  intros [Hu _] Hreach. induction Hreach as [|s y x Hsy _ IH]; [done|].
  intros Hs. apply IH. apply derives_unary with s; [by apply Hu|done].
Qed.

(** ** The effect of one build attempt and of a run of them *)

Lemma maybeBuild_effect limit start mid end_ t t' :
  wf_chart t → start < mid < end_ → end_ < n t →
  maybeBuild limit start mid end_ t = Ok t' →
  ∃ left right cell cell',
    cell_at t start mid = Some left ∧
    cell_at t mid end_ = Some right ∧
    cell_at t start end_ = Some cell ∧
    t' = store_cell start end_ cell' t ∧
    closure_of (unary t)
      (build_parents (binary t) (Cell.labels left) (Cell.labels right)) cell cell'.
Proof.
  intros Hwf Hmid Hend Hrun.
  destruct (maybeBuild_in_chart limit start mid end_ t)
    as (left & right & cell & Hleft & Hright & Hcell & Heq); [done..|].
  rewrite Heq in Hrun.
  apply call_cell_Ok in Hrun as (cell0 & cell' & Hcell0 & Hloop & ->).
  rewrite Hcell in Hcell0. injection Hcell0 as <-.
  exists left, right, cell, cell'. split_and!; [done..|].
  by apply add_and_close_loop in Hloop.
Qed.

Lemma grows_refl self : grows self self.
Proof. intros r c cell Hcell. by exists cell. Qed.

Lemma grows_trans self1 self2 self3 :
  grows self1 self2 → grows self2 self3 → grows self1 self3.
Proof.
  intros H12 H23 r c cell Hcell.
  destruct (H12 r c cell Hcell) as (cell2 & Hc2 & ? & ? & ?).
  destruct (H23 r c cell2 Hc2) as (cell3 & Hc3 & ? & ? & ?).
  exists cell3. split_and!; [done|congruence|congruence|by etrans].
Qed.

Lemma grows_store r c cell cell' roots u self :
  cell_at self r c = Some cell → closure_of u roots cell cell' →
  grows self (store_cell r c cell' self).
Proof.
  intros Hcell (Hr & Hc & Hpre & _) r' c' cell0 Hcell0.
  rewrite (cell_at_store _ _ cell) by done. case_decide as Heq; [|by exists cell0].
  destruct Heq as [<- <-]. exists cell'. by simplify_eq.
Qed.

(** A run of build attempts over visits of the scan keeps the chart
    well-formed, only extends cells, and leaves alone every cell that is not
    the target of one of the visits. *)
Lemma scan_run limit l t t' :
  (∀ v, v ∈ l → v ∈ scan_visits (n t)) → chart_ok t →
  for_ l (fun v => maybeBuild limit v.1.1 v.1.2 v.2) t = Ok t' →
  chart_ok t' ∧ frame t t' ∧ grows t t' ∧
  (∀ r c, (∀ v, v ∈ l → (v.1.1, v.2) ≠ (r, c)) → cell_at t' r c = cell_at t r c).
Proof.
  revert t. induction l as [|[[start mid] end_] l IH]; intros t Hl Hok Hrun; simpl in Hrun.
  - simplify_eq. split_and!; [done|apply frame_refl|apply grows_refl|done].
  - destruct (maybeBuild limit start mid end_ t) as [t1|] eqn:Hv; [|done].
    destruct (proj1 (elem_of_scan_visits _ _ _ _) (Hl _ (list_elem_of_here _ _)))
      as (_ & Hend & Hmid).
    destruct (maybeBuild_effect limit start mid end_ t t1)
      as (left & right & cell & cell' & _ & _ & Hcell & -> & Hcl); [apply Hok|done|lia|done|].
    pose proof (store_cell_frame start end_ cell' t) as Hfr1.
    assert (chart_ok (store_cell start end_ cell' t)) as Hok1.
    { apply (frame_chart_ok t); [done| |done]. apply (wf_chart_store _ _ cell); [done|apply Hok]. }
    destruct (IH (store_cell start end_ cell' t)) as (Hok2 & Hfr2 & Hgr2 & Hsame2);
      [|done|done|].
    { intros v Hv'. rewrite (frame_n _ _ Hfr1). apply Hl. by right. }
    split_and!; [done|by eapply frame_trans| |].
    + eapply grows_trans; [by eapply grows_store|done].
    + intros r c Hno. rewrite Hsame2 by (intros v Hv'; apply Hno; by right).
      rewrite (cell_at_store _ _ cell) by done. rewrite decide_False; [done|].
      intros [<- <-]. by apply (Hno (start, mid, end_)); [left|].
Qed.

(** What the diagonal fill leaves in the fresh chart. *)
Lemma unaryFill_effect limit tokens self self1 :
  unaryFill limit (recognise_init tokens false self) = Ok self1 →
  chart_ok self1 ∧ frame (recognise_init tokens false self) self1 ∧
  (∀ r w, tokens !! r = Some w →
     ∃ cell', cell_at self1 r (r + 1) = Some cell' ∧
       _row cell' = r ∧ _column cell' = r + 1 ∧
       ∀ x, x ∈ Cell.labels cell' ↔ rtc (parent_of (unary self)) (Terminal w) x) ∧
  (∀ r c, c ≠ r + 1 → cell_at self1 r c = cell_at (recognise_init tokens false self) r c).
Proof.
  intros Hrun.
  destruct (unaryFill_rows (fun _ => True) limit
              (range 0 (n (recognise_init tokens false self) - 1))
              (recognise_init tokens false self) self1)
    as (Hok & Hfr & _ & Hrows & Hother);
    [done|apply chart_ok_init|done|apply NoDup_seq| |done|].
  { intros r Hr%elem_of_range. simpl in *. lia. }
  split_and!; [done|done| |].
  - intros r w Hw. apply lookup_lt_Some in Hw as Hr.
    destruct (Hrows r) as (w' & cell & cell' & Hw' & Hcell & Hadd & Hcell').
    { apply elem_of_range. simpl. lia. }
    simpl in Hw'. rewrite Hw in Hw'. injection Hw' as <-.
    rewrite cell_at_init, decide_True in Hcell by lia. injection Hcell as <-.
    exists cell'. split; [done|].
    apply add_and_close_closure in Hadd as (Hr' & Hc' & _ & _ & Hx).
    split_and!; [done..|].
    intros x. rewrite Hx. simpl. split.
    + intros [[]%elem_of_nil|(p & ->%list_elem_of_singleton & Hp)]. done.
    + intros Hp. right. exists (Terminal w). split; [left|done].
  - intros r c Hc. apply Hother. tauto.
Qed.

(** ** The chart holds exactly what the grammar derives *)

Section correctness.
Variables (ps : list Production) (limit : nat) (tokens : list string) (self : CKY).
Hypothesis Hix : indexes ps (unary self) (binary self).

Let self0 : CKY := recognise_init tokens false self.

Lemma fill_sound self1 :
  unaryFill limit self0 = Ok self1 → sound ps tokens self1.
Proof.
  intros (Hok & Hfr & Hdiag & Hother)%unaryFill_effect r c cell x Hcell Hx.
  destruct (decide (c = r + 1)) as [->|Hc].
  - destruct (tokens !! r) as [w|] eqn:Hw.
    + destruct (Hdiag r w Hw) as (cell' & Hcell' & _ & _ & Hlab).
      rewrite Hcell in Hcell'. injection Hcell' as <-.
      rewrite (slice_word _ _ _ Hw).
      eapply derives_reachable; [done|by apply Hlab|constructor].
    + apply lookup_ge_None in Hw.
      assert (is_Some (cell_at self1 r (r + 1))) as Hsome by eauto.
      apply Hok in Hsome. rewrite (frame_n _ _ Hfr) in Hsome. simpl in Hsome. lia.
  - rewrite Hother in Hcell by done. unfold self0 in Hcell.
    rewrite cell_at_init in Hcell. case_decide; [|done]. simplify_eq.
    by apply elem_of_nil in Hx.
Qed.

Lemma build_sound start mid end_ t t' :
  chart_ok t → frame self0 t → sound ps tokens t →
  start < mid < end_ → end_ < n t →
  maybeBuild limit start mid end_ t = Ok t' → sound ps tokens t'.
Proof.
  intros Hok Hfr Hs Hmid Hend Hrun r c cell0 x.
  pose proof Hfr as (_ & _ & Hu & Hb & _ & Hn). simpl in Hu, Hb, Hn.
  destruct (maybeBuild_effect limit start mid end_ t t')
    as (left & right & cell & cell' & Hleft & Hright & Hcell & -> & Hcl); [apply Hok|done..|].
  rewrite (cell_at_store _ _ cell) by done. case_decide as Heq; [|apply Hs].
  destruct Heq as [<- <-]. intros [= <-] Hx.
  destruct Hcl as (_ & _ & _ & _ & Hlab). apply Hlab in Hx as [Hx|(p & Hp & Hpx)].
  - by eapply Hs.
  - apply elem_of_build_parents in Hp as (s1 & s2 & parents & Hs1 & Hs2 & Hlk & Hp).
    rewrite Hu in Hpx. eapply derives_reachable; [done..|].
    rewrite <-(slice_app tokens start mid end_) by lia.
    apply derives_binary with s1 s2; [|by eapply Hs..].
    apply Hix. exists parents. by rewrite <-Hb.
Qed.

Lemma chart_sound final :
  fill_chart limit tokens self = Ok final → sound ps tokens final.
Proof.
  intros (self1 & Hfill & Hscan)%bind_Ok. fold self0 in Hfill.
  pose proof (fill_sound self1 Hfill) as Hs1.
  apply unaryFill_effect in Hfill as (Hok1 & Hfr1 & _).
  rewrite binaryScan_visits in Hscan. revert Hscan.
  apply (for_invariant (fun t => (chart_ok t ∧ frame self0 t) ∧ sound ps tokens t));
    [|done].
  intros [[start mid] end_] t t' (_ & Hend & Hmid)%elem_of_scan_visits [[Hok Hfr] Hs] Hrun.
  simpl in Hrun. rewrite (frame_n _ _ Hfr1) in Hend.
  assert (end_ < n t) as Hlt by (rewrite (frame_n _ _ Hfr); simpl in *; lia).
  split; [|by eapply build_sound].
  destruct (maybeBuild_chart (fun _ => True) limit start mid end_ t t')
    as (Hok' & Hfr' & _); [done..|].
  split; [done|by eapply frame_trans].
Qed.

(** When the scan is over, the parents of every pair of a label of
    [(start, mid)] and a label of [(mid, end)] are labels of [(start, end)]:
    the two smaller cells were final when the pair was visited. *)
Lemma final_binary_closed self1 final start mid end_ left right s1 s2 parents p :
  chart_ok self1 → binaryScan limit self1 = Ok final →
  start < mid < end_ → end_ < n self1 →
  cell_at final start mid = Some left → cell_at final mid end_ = Some right →
  s1 ∈ Cell.labels left → s2 ∈ Cell.labels right →
  binary self1 !! (s1, s2) = Some parents → p ∈ parents →
  ∃ cell, cell_at final start end_ = Some cell ∧ p ∈ Cell.labels cell.
Proof.
  intros Hok1 Hscan Hmid Hend Hleft Hright Hs1 Hs2 Hlk Hp.
  rewrite binaryScan_visits in Hscan.
  assert ((start, mid, end_) ∈ scan_visits (n self1)) as Hv
    by (apply elem_of_scan_visits; lia).
  pose proof (scan_visits_sorted (n self1)) as Hsorted.
  pose proof (fun v => proj1 (elem_of_scan_visits (n self1) v.1.1 v.1.2 v.2)) as Hin.
  destruct (list_elem_of_split _ _ Hv) as (l1 & l2 & Hsplit).
  rewrite Hsplit in Hscan, Hsorted, Hin.
  rewrite for_app in Hscan. apply bind_Ok in Hscan as (t & Hrun1 & Hrun2).
  simpl in Hrun2. destruct (maybeBuild limit start mid end_ t) as [t'|] eqn:Hbuild; [|done].
  destruct (scan_run limit l1 self1 t) as (Hok & Hfr & _); [|done..|].
  { intros v Hv'. rewrite Hsplit. apply elem_of_app. by left. }
  pose proof Hfr as (_ & _ & _ & Hb & _ & Hn).
  destruct (maybeBuild_effect limit start mid end_ t t')
    as (left' & right' & cell & cell' & Hleft' & Hright' & Hcell & -> & Hcl);
    [apply Hok|done|lia|done|].
  assert (chart_ok (store_cell start end_ cell' t)) as Hok'.
  { apply (frame_chart_ok t); [apply store_cell_frame| |done].
    apply (wf_chart_store _ _ cell); [done|apply Hok]. }
  destruct (scan_run limit l2 (store_cell start end_ cell' t) final)
    as (_ & _ & Hgrow & Hsame); [|done..|].
  { intros v Hv'. rewrite (frame_n _ _ (store_cell_frame _ _ _ _)), Hn, Hsplit.
    apply elem_of_app. right. by right. }
  (* the later visits have a span that is at least as long *)
  apply StronglySorted_app in Hsorted as (_ & _ & Hsorted).
  apply StronglySorted_cons in Hsorted as [Hlater _]. rewrite Forall_forall in Hlater.
  assert (∀ r c, c - r < end_ - start → r < c →
            cell_at final r c = cell_at t r c) as Hfinal.
  { intros r c Hspan Hrc. rewrite Hsame.
    - rewrite (cell_at_store _ _ cell) by done. rewrite decide_False; [done|].
      intros [<- <-]. lia.
    - intros [[s m] e] Hw [= <- <-]. simpl in *.
      pose proof (Hlater _ Hw) as Hlt. simpl in Hlt. lia. }
  rewrite Hfinal in Hleft, Hright by lia.
  rewrite Hleft in Hleft'. rewrite Hright in Hright'. simplify_eq.
  destruct (Hgrow start end_ cell') as (cell2 & Hcell2 & _ & _ & Hpre).
  { rewrite (cell_at_store _ _ cell) by done. by rewrite decide_True. }
  exists cell2. split; [done|]. eapply elem_of_prefix; [|done].
  destruct Hcl as (_ & _ & _ & _ & Hlab). apply Hlab. right. exists p. split; [|done].
  apply elem_of_build_parents. exists s1, s2, parents. by rewrite Hb.
Qed.

Lemma chart_complete final :
  fill_chart limit tokens self = Ok final → complete ps tokens final.
Proof.
  intros Hfill.
  destruct (fill_chart_inv (closed_within limit (unary self)) limit tokens self final)
    as (Hokf & Hfrf & Hclosed); [apply stable_closed| |done|].
  { intros r' c'. split; [intros l p Hl|intros l Hl]; by apply elem_of_nil in Hl. }
  apply bind_Ok in Hfill as (self1 & Hfill & Hscan). fold self0 in Hfill.
  apply unaryFill_effect in Hfill as (Hok1 & Hfr1 & Hdiag & _).
  pose proof Hfr1 as (_ & _ & _ & Hb1 & _ & Hn1). simpl in Hb1, Hn1.
  pose proof Hscan as Hscan'. rewrite binaryScan_visits in Hscan'.
  destruct (scan_run limit _ self1 final (fun v Hv => Hv) Hok1 Hscan') as (_ & _ & Hgrow & _).
  intros r c x Hrc Hder. remember (slice tokens r c) as ws eqn:Hws.
  revert r c Hrc Hws.
  induction Hder as [w|p c' ws Hprod _ IH|p c1 c2 ws1 ws2 Hprod Hd1 IH1 Hd2 IH2];
    intros r c Hrc Hws.
  - symmetry in Hws. apply slice_word_inv in Hws as [-> Hw]; [|done].
    destruct (Hdiag r w Hw) as (cell' & Hcell' & _ & _ & Hlab).
    destruct (Hgrow _ _ _ Hcell') as (cell2 & Hcell2 & _ & _ & Hpre).
    exists cell2. split; [done|]. eapply elem_of_prefix; [|done]. by apply Hlab.
  - destruct (IH r c Hrc Hws) as (cell & Hcell & Hc').
    exists cell. split; [done|].
    destruct (Hclosed r c cell Hcell) as [Hcl _]. apply (Hcl c'); [done|]. by apply Hix.
  - symmetry in Hws. apply slice_split in Hws as (Hws1 & Hws2 & Hlen); [|lia].
    apply derives_nonempty in Hd1 as Hl1. apply derives_nonempty in Hd2 as Hl2.
    destruct (IH1 r (r + length ws1)) as (left & Hleft & Hc1); [lia|done|].
    destruct (IH2 (r + length ws1) c) as (right & Hright & Hc2); [lia|done|].
    apply Hix in Hprod as (parents & Hlk & Hp).
    apply (final_binary_closed self1 final r (r + length ws1) c left right c1 c2 parents);
      try done; [lia|lia|by rewrite Hb1].
Qed.
End correctness.

(** ** The recogniser and the grammar *)

Lemma recognise_nonempty limit tokens self r :
  recognise limit tokens self = Ok r → tokens ≠ [].
Proof. by intros Hrun ->. Qed.

Lemma recognise_top limit tokens self out self' :
  recognise limit tokens self = Ok (out, self') →
  fill_chart limit tokens self = Ok self' ∧
  frame (recognise_init tokens false self) self' ∧ chart_ok self' ∧
  ∃ top, cell_at self' 0 (length tokens) = Some top ∧ NoDup (Cell.labels top) ∧
    out = if decide (start (grammar self) ∉ Cell.labels top)
          then ret_False else ret_int (length (Cell.labels top)).
Proof.
  intros Hrun. apply recognise_nonempty in Hrun as Hne.
  apply recognise_Ok in Hrun as (Hfill & top & Htop & Hout).
  destruct (fill_chart_inv (fun cell => NoDup (Cell.labels cell)) limit tokens self self')
    as (Hok & Hfr & Hnd); [apply stable_NoDup|intros; constructor|done|].
  destruct (top_cell tokens self self' Hne Hok Hfr) as [Hn _].
  pose proof Hfr as (_ & Hg & _). simpl in Hg. rewrite Hg in Hout.
  rewrite Hn in Htop. replace (length tokens + 1 - 1) with (length tokens) in Htop by lia.
  split_and!; [done..|]. exists top. split_and!; [done|by eapply Hnd|done].
Qed.

(** X1: when [recognise] returns, every label of every cell derives, by the
    productions of the grammar, the words of the span of its cell. *)
Theorem recognise_chart_sound (g : CFG) (limit : nat) (tokens : list string)
    (self self' : CKY) (out : outcome) :
  CKY_init g = Ok self →
  recognise limit tokens self = Ok (out, self') →
  ∀ r c cell x, cell_at self' r c = Some cell → x ∈ Cell.labels cell →
    derives (productions g) x (slice tokens r c).
Proof.
  intros [_ Hix]%CKY_init_indexes (Hfill & _)%recognise_Ok.
  by apply (chart_sound (productions g) limit tokens self).
Qed.

Lemma recognise_chart_sound_witness :
  ∃ self',
    recognise 10 ["the"; "dog"; "barks"] (recogniser dog_grammar) = Ok (ret_int 1, self') ∧
    ∀ r c cell x, cell_at self' r c = Some cell → x ∈ Cell.labels cell →
      derives (productions dog_grammar) x (slice ["the"; "dog"; "barks"] r c).
Proof.
  eexists. assert (recognise 10 ["the"; "dog"; "barks"] (recogniser dog_grammar)
                   = Ok (ret_int 1, _)) as Hrun by (vm_compute; reflexivity).
  split; [exact Hrun|].
  exact (recognise_chart_sound dog_grammar _ _ _ _ _ dog_recogniser Hrun).
Defined.

(** X2: when [recognise] returns, every symbol that derives the words of a
    span is a label of the cell of that span. *)
Theorem recognise_chart_complete (g : CFG) (limit : nat) (tokens : list string)
    (self self' : CKY) (out : outcome) :
  CKY_init g = Ok self →
  recognise limit tokens self = Ok (out, self') →
  ∀ r c x, r < c ≤ length tokens → derives (productions g) x (slice tokens r c) →
    ∃ cell, cell_at self' r c = Some cell ∧ x ∈ Cell.labels cell.
Proof.
  intros [_ Hix]%CKY_init_indexes (Hfill & _)%recognise_Ok.
  by apply (chart_complete (productions g) limit tokens self).
Qed.

Lemma recognise_chart_complete_witness :
  ∃ self',
    recognise 10 ["the"; "dog"; "barks"] (recogniser dog_grammar) = Ok (ret_int 1, self') ∧
    ∀ r c x, r < c ≤ 3 →
      derives (productions dog_grammar) x (slice ["the"; "dog"; "barks"] r c) →
      ∃ cell, cell_at self' r c = Some cell ∧ x ∈ Cell.labels cell.
Proof.
  eexists. assert (recognise 10 ["the"; "dog"; "barks"] (recogniser dog_grammar)
                   = Ok (ret_int 1, _)) as Hrun by (vm_compute; reflexivity).
  split; [exact Hrun|].
  exact (recognise_chart_complete dog_grammar _ _ _ _ _ dog_recogniser Hrun).
Defined.

Lemma recognise_top_derives g limit tokens self self' out :
  CKY_init g = Ok self →
  recognise limit tokens self = Ok (out, self') →
  ∃ top, cell_at self' 0 (length tokens) = Some top ∧
    NoDup (Cell.labels top) ∧
    (∀ x, x ∈ Cell.labels top ↔ derives (productions g) x tokens) ∧
    out = if decide (start g ∉ Cell.labels top)
          then ret_False else ret_int (length (Cell.labels top)).
Proof.
  intros Hinit Hrun. apply recognise_nonempty in Hrun as Hne.
  destruct (CKY_init_indexes g self Hinit) as [Hg Hix].
  destruct (recognise_top _ _ _ _ _ Hrun) as (Hfill & _ & _ & top & Htop & Hnd & Hout).
  exists top. rewrite Hg in Hout. split_and!; [done..| |done].
  intros x. split.
  - intros Hx. rewrite <-(slice_all tokens).
    by apply (chart_sound (productions g) limit tokens self Hix self' Hfill 0 _ top).
  - intros Hd.
    destruct (chart_complete (productions g) limit tokens self Hix self' Hfill
                0 (length tokens) x) as (top' & Htop' & Hx).
    + destruct tokens; [done|simpl; lia].
    + by rewrite slice_all.
    + by simplify_eq.
Qed.

(** X3: when [recognise] returns, the labels of the top cell are exactly the
    symbols that derive the sentence, so the result differs from [False]
    exactly when the start symbol derives the sentence, and a count is the
    number of symbols that derive it. *)
Theorem recognise_decides_derivation (g : CFG) (limit : nat) (tokens : list string)
    (self self' : CKY) (out : outcome) :
  CKY_init g = Ok self →
  recognise limit tokens self = Ok (out, self') →
  (out ≠ ret_False ↔ derives (productions g) (start g) tokens) ∧
  ∃ top, cell_at self' 0 (length tokens) = Some top ∧
    NoDup (Cell.labels top) ∧
    (∀ x, x ∈ Cell.labels top ↔ derives (productions g) x tokens) ∧
    (∀ k, out = ret_int k → k = length (Cell.labels top)).
Proof.
  intros Hinit Hrun.
  destruct (recognise_top_derives g limit tokens self self' out Hinit Hrun)
    as (top & Htop & Hnd & Hlab & Hout).
  split.
  - rewrite <-Hlab, Hout. destruct (decide _) as [Hno|Hyes]; [tauto|].
    apply dec_stable in Hyes. done.
  - exists top. split_and!; [done..|]. intros k. rewrite Hout.
    destruct (decide _); [done|]. by intros [= <-].
Qed.

Lemma recognise_decides_derivation_witness :
  ∃ self',
    recognise 10 ["the"; "dog"; "barks"] (recogniser dog_grammar) = Ok (ret_int 1, self') ∧
    (ret_int 1 ≠ ret_False ↔
       derives (productions dog_grammar) (start dog_grammar) ["the"; "dog"; "barks"]).
Proof.
  eexists. assert (recognise 10 ["the"; "dog"; "barks"] (recogniser dog_grammar)
                   = Ok (ret_int 1, _)) as Hrun by (vm_compute; reflexivity).
  split; [exact Hrun|].
  exact (proj1 (recognise_decides_derivation dog_grammar _ _ _ _ _ dog_recogniser Hrun)).
Defined.

(** ** Termination and unary cycles *)

Lemma parent_of_unary_rule ps u b x y :
  indexes ps u b → tc (parent_of u) x y ↔ tc (unary_rule ps) x y.
Proof.
  intros [Hu _]. split.
  - induction 1 as [x y H|x y z H _ IH]; [apply tc_once|eapply tc_l; [|done]]; by apply Hu.
  - induction 1 as [x y H|x y z H _ IH]; [apply tc_once|eapply tc_l; [|done]]; by apply Hu.
Qed.


Lemma chain_recogniser : CKY_init chain_grammar = Ok (recogniser chain_grammar).
Proof. vm_compute. reflexivity. Qed.



(** X5: on a sentence of at least one word [recognise] raises no exception
    other than [RecursionError]: every index into the matrix and into the
    words is in range and every entry it dereferences is a cell. *)
Theorem recognise_raises_only_RecursionError (limit : nat) (tokens : list string)
    (self : CKY) (e : exn) :
  tokens ≠ [] → recognise limit tokens self = Raise e → e = RecursionError.
Proof. apply recognise_raises. Qed.

Lemma cyclic_word_recogniser :
  CKY_init cyclic_word_grammar = Ok (recogniser cyclic_word_grammar).
Proof. vm_compute. reflexivity. Qed.

Lemma recognise_raises_only_RecursionError_witness :
  recognise 5 ["a"] (recogniser cyclic_word_grammar) = Raise RecursionError ∧
  RecursionError = RecursionError.
Proof.
  assert (recognise 5 ["a"] (recogniser cyclic_word_grammar) = Raise RecursionError)
    as Hrun by (vm_compute; reflexivity).
  split; [exact Hrun|].
  refine (recognise_raises_only_RecursionError 5 ["a"] _ _ _ Hrun). discriminate.
Defined.

(** X6: if unary rules lead from a symbol to a symbol that lies on a cycle of
    unary rules, [unaryUpdate] from that symbol raises [RecursionError] on
    every cell, whatever nesting depth is allowed. *)
Theorem unaryUpdate_raises_on_cycle (u : gmap Symbol (list Symbol))
    (symbol x : Symbol) (depth : nat) (cell : Cell) :
  rtc (parent_of u) symbol x → tc (parent_of u) x x →
  Cell.unaryUpdate depth u symbol cell = Raise RecursionError.
Proof.
  intros Hreach Hcycle.
  destruct (Cell.unaryUpdate depth u symbol cell) as [cell'|e] eqn:Hrun.
  - exfalso. apply unaryUpdate_returns, returns_sn in Hrun.
    by apply (sn_no_cycle u symbol x).
  - f_equal. by eapply unaryUpdate_raises.
Qed.

Lemma unaryUpdate_raises_on_cycle_witness :
  Cell.unaryUpdate 50 (unary (recogniser cyclic_word_grammar)) (Terminal "a")
    (mkCell 0 1 [Terminal "a"]) = Raise RecursionError.
Proof.
  apply (unaryUpdate_raises_on_cycle _ (Terminal "a") (Nonterminal "Y")).
  - apply rtc_once. exists [Nonterminal "Y"]. split; [vm_compute; reflexivity|left].
  - apply tc_l with (Nonterminal "X"); [|apply tc_once].
    + exists [Nonterminal "X"]. split; [vm_compute; reflexivity|left].
    + exists [Nonterminal "Y"]. split; [vm_compute; reflexivity|left].
Defined.

(** X7: if a symbol that derives some span of the sentence lies on a cycle of
    unary productions, [recognise] raises [RecursionError] whatever nesting
    depth is allowed. *)
Theorem recognise_raises_on_derivable_cycle (g : CFG) (limit : nat)
    (tokens : list string) (self : CKY) (r c : nat) (x : Symbol) :
  CKY_init g = Ok self →
  r < c ≤ length tokens →
  derives (productions g) x (slice tokens r c) →
  tc (unary_rule (productions g)) x x →
  recognise limit tokens self = Raise RecursionError.
Proof.
  intros Hinit Hrc Hder Hcycle. destruct (CKY_init_indexes g self Hinit) as [_ Hix].
  destruct (recognise limit tokens self) as [[out self']|e] eqn:Hrun.
  - exfalso. apply recognise_Ok in Hrun as (Hfill & _).
    destruct (chart_complete (productions g) limit tokens self Hix self' Hfill r c x)
      as (cell & Hcell & Hx); [done..|].
    destruct (fill_chart_inv (closed_within limit (unary self)) limit tokens self self')
      as (_ & _ & Hclosed); [apply stable_closed| |done|].
    { intros r' c'. split; [intros l p Hl|intros l Hl]; by apply elem_of_nil in Hl. }
    destruct (Hclosed r c cell Hcell) as [_ Hret].
    apply (sn_no_cycle (unary self) x x); [eapply returns_sn; by apply Hret|done|].
    by eapply parent_of_unary_rule.
  - f_equal. eapply recognise_raises; [|done]. intros ->. simpl in Hrc. lia.
Qed.

Lemma recognise_raises_on_derivable_cycle_witness :
  recognise 1000 ["a"] (recogniser cyclic_word_grammar) = Raise RecursionError.
Proof.
  apply (recognise_raises_on_derivable_cycle cyclic_word_grammar 1000 ["a"] _ 0 1
           (Nonterminal "Y")).
  - exact cyclic_word_recogniser.
  - simpl. lia.
  - apply derives_unary with (Terminal "a"); [left|constructor].
  - apply tc_l with (Nonterminal "X"); [|apply tc_once].
    + right. left.
    + right. right. left.
Defined.

(** ** The state that [recognise] leaves *)

(** Whatever is kept by replacing a cell with an extension of it is kept by
    filling the chart. *)
Lemma fill_chart_stores (J : CKY → Prop) limit tokens self final :
  (∀ t r c cell cell' roots,
     J t → cell_at t r c = Some cell → closure_of (unary self) roots cell cell' →
     J (store_cell r c cell' t)) →
  J (recognise_init tokens false self) →
  fill_chart limit tokens self = Ok final → J final.
Proof.
  intros Hstore Hinit (self1 & Hfill & Hscan)%bind_Ok.
  set (self0 := recognise_init tokens false self) in *.
  set (I := fun t => (chart_ok t ∧ frame self0 t) ∧ J t).
  assert (I self1) as [[Hok1 Hfr1] HJ1].
  { revert Hfill. unfold unaryFill. apply (for_invariant I).
    - intros r t t' Hr%elem_of_range [[Hok Hfr] HJ] Hturn.
      pose proof Hfr as (_ & _ & Hu & _ & Hwords & Hn). simpl in Hu, Hwords, Hn.
      destruct (unaryFill_turn_in_chart limit r t) as (cell & w & Hcell & Hw & Heq);
        [done|rewrite Hwords; simpl in *; lia|].
      rewrite Heq in Hturn.
      destruct (call_cell_chart (fun _ => True) _ _ _ _ _ (fun _ _ _ _ => Logic.I) Hok
                  (fun _ _ _ _ => Logic.I) Hturn) as (Hok' & Hfr' & _).
      apply call_cell_Ok in Hturn as (cell0 & cell' & Hcell0 & Hadd & ->).
      rewrite Hcell in Hcell0. injection Hcell0 as <-.
      split; [split; [done|by eapply frame_trans]|].
      eapply Hstore; [done..|]. rewrite <-Hu. by eapply add_and_close_closure.
    - split; [split; [apply chart_ok_init|apply frame_refl]|done]. }
  rewrite binaryScan_visits in Hscan. revert Hscan.
  assert (I self1) as HI1 by done. revert HI1.
  intros HI1 Hscan. apply (for_invariant I _ _ _ _) in Hscan; [apply Hscan| |done].
  intros [[start mid] end_] t t' (_ & Hend & Hmid)%elem_of_scan_visits [[Hok Hfr] HJ] Hrun.
  simpl in Hrun. pose proof Hfr as (_ & _ & Hu & _ & _ & Hn).
  rewrite (frame_n _ _ Hfr1) in Hend. simpl in Hu, Hn, Hend.
  destruct (maybeBuild_chart (fun _ => True) limit start mid end_ t t')
    as (Hok' & Hfr' & _); [done|done|done|done|rewrite Hn; lia|done|].
  destruct (maybeBuild_effect limit start mid end_ t t')
    as (left & right & cell & cell' & _ & _ & Hcell & -> & Hcl);
    [apply Hok|done|rewrite Hn; lia|done|].
  split; [split; [done|by eapply frame_trans]|].
  eapply Hstore; [done..|]. by rewrite <-Hu.
Qed.

Lemma matrix_shape_init tokens v self : matrix_shape (recognise_init tokens v self).
Proof.
  split_and!.
  - simpl. unfold new_matrix, range. rewrite length_fmap, length_seq. lia.
  - intros r row. simpl. unfold new_matrix. rewrite list_lookup_fmap.
    destruct (range 0 (length tokens + 1 - 1) !! r); simpl; [|done].
    intros [= <-]. unfold new_row, range. rewrite length_fmap, length_seq. lia.
  - intros r c cell. rewrite cell_at_init. case_decide; [|done]. by intros [= <-].
Qed.

Lemma matrix_shape_store r c cell cell' roots u t :
  matrix_shape t → cell_at t r c = Some cell → closure_of u roots cell cell' →
  matrix_shape (store_cell r c cell' t).
Proof.
  intros (Hlen & Hrows & Hpos) Hcell (Hr & Hc & _).
  destruct (store_cell_fields r c cell' t) as (_ & _ & _ & _ & _ & Hn).
  destruct (Hpos _ _ _ Hcell) as [Hr0 Hc0].
  split_and!.
  - rewrite Hn, <-Hlen. unfold store_cell. destruct (matrix t !! r); [|done].
    simpl. by rewrite length_insert.
  - intros r' row'. rewrite Hn. unfold store_cell.
    destruct (matrix t !! r) as [row|] eqn:Hrow; [|apply Hrows]. simpl.
    rewrite list_lookup_insert. case_decide as Hrr; [|apply Hrows].
    intros [= <-]. rewrite length_insert. by eapply Hrows.
  - intros r' c' cell0. rewrite (cell_at_store _ _ cell) by done.
    case_decide as Heq; [|apply Hpos]. destruct Heq as [<- <-].
    intros [= <-]. split; congruence.
Qed.

(** X8: when [recognise] returns, the recogniser it leaves has the same
    grammar and indices, the sentence as its words, [n] one more than the
    number of words, and a matrix of one row per word and [n] entries per
    row; the entry [(r, c)] is a cell when [r < c] and the filler
    otherwise, and a cell records its own position and repeats no label. *)
Theorem recognise_final_state (limit : nat) (tokens : list string)
    (self self' : CKY) (out : outcome) :
  recognise limit tokens self = Ok (out, self') →
  grammar self' = grammar self ∧ unary self' = unary self ∧ binary self' = binary self ∧
  words self' = tokens ∧ n self' = length tokens + 1 ∧
  length (matrix self') = length tokens ∧
  (∀ r row, matrix self' !! r = Some row → length row = length tokens + 1) ∧
  (∀ r c, r < c ≤ length tokens →
     ∃ cell, matrix_at self' r c = Ok (Some cell) ∧
       _row cell = r ∧ _column cell = c ∧ NoDup (Cell.labels cell)) ∧
  (∀ r c, c ≤ r → r < length tokens → matrix_at self' r c = Ok None).
Proof.
  intros (Hfill & _)%recognise_Ok.
  destruct (fill_chart_inv (fun cell => NoDup (Cell.labels cell)) limit tokens self self')
    as ([Hwf _] & Hfr & Hnd); [apply stable_NoDup|intros; constructor|done|].
  destruct Hfr as (_ & Hg & Hu & Hb & Hw & Hn). simpl in Hg, Hu, Hb, Hw, Hn.
  destruct (fill_chart_stores matrix_shape limit tokens self self')
    as (Hlen & Hrows & Hpos); [|apply matrix_shape_init|done|].
  { intros t r c cell cell' roots. apply matrix_shape_store. }
  rewrite Hn in Hlen, Hrows.
  split_and!; [done..|lia|done| |].
  - intros r c Hrc. destruct (proj2 (Hwf r c)) as [cell Hcell]; [lia|].
    exists cell. destruct (Hpos _ _ _ Hcell) as [? ?].
    split_and!; [by apply matrix_at_cell|done|done|by eapply Hnd].
  - intros r c Hc Hr. unfold matrix_at, getitem.
    destruct (lookup_lt_is_Some_2 (matrix self') r) as [row Hrow]; [lia|].
    rewrite Hrow. simpl.
    destruct (lookup_lt_is_Some_2 row c) as [entry Hentry];
      [rewrite (Hrows _ _ Hrow); lia|].
    rewrite Hentry. destruct entry as [cell|]; [|done].
    assert (is_Some (cell_at self' r c)) as Hsome.
    { unfold cell_at. rewrite Hrow, Hentry. eauto. }
    apply Hwf in Hsome. lia.
Qed.

Lemma recognise_final_state_witness :
  ∃ self',
    recognise 10 ["the"; "dog"; "barks"] (recogniser dog_grammar) = Ok (ret_int 1, self') ∧
    words self' = ["the"; "dog"; "barks"] ∧ n self' = 4 ∧ length (matrix self') = 3.
Proof.
  eexists. assert (recognise 10 ["the"; "dog"; "barks"] (recogniser dog_grammar)
                   = Ok (ret_int 1, _)) as Hrun by (vm_compute; reflexivity).
  split; [exact Hrun|].
  destruct (recognise_final_state _ _ _ _ _ Hrun) as (_ & _ & _ & Hw & Hn & Hlen & _).
  exact (conj Hw (conj Hn Hlen)).
Defined.

(** X9: [recognise] reads only the grammar and the two indices of the
    recogniser it is called on, so a recogniser that has been used answers
    as the fresh one does: nothing of an earlier chart is carried over. *)
Theorem recognise_again (limit1 limit : nat) (tokens1 tokens : list string)
    (self self1 : CKY) (out1 : outcome) :
  recognise limit1 tokens1 self = Ok (out1, self1) →
  recognise limit tokens self1 = recognise limit tokens self.
Proof.
  intros (Hfill & _)%recognise_Ok.
  destruct (fill_chart_inv (fun _ => True) limit1 tokens1 self self1)
    as (_ & (_ & Hg & Hu & Hb & _) & _); [done..|].
  simpl in Hg, Hu, Hb. unfold recognise, fill_chart, recognise_init.
  by rewrite Hg, Hu, Hb.
Qed.

Lemma recognise_again_witness :
  ∃ self1,
    recognise 10 ["the"; "dog"; "barks"] (recogniser dog_grammar) = Ok (ret_int 1, self1) ∧
    recognise 10 ["dog"] self1 = recognise 10 ["dog"] (recogniser dog_grammar).
Proof.
  eexists. assert (recognise 10 ["the"; "dog"; "barks"] (recogniser dog_grammar)
                   = Ok (ret_int 1, _)) as Hrun by (vm_compute; reflexivity).
  split; [exact Hrun|].
  exact (recognise_again _ 10 _ ["dog"] _ _ _ Hrun).
Defined.

(** ** The nesting depth does not matter once it is enough *)

Lemma for_mono {A S : Type} (l : list A) (body1 body2 : A → S → Res S) s s' :
  (∀ x t t', body1 x t = Ok t' → body2 x t = Ok t') →
  for_ l body1 s = Ok s' → for_ l body2 s = Ok s'.
Proof.
  intros Hbody. revert s. induction l as [|x l IH]; intros s; simpl; [done|].
  destruct (body1 x s) as [t|] eqn:Hx; [|done].
  rewrite (Hbody _ _ _ Hx). apply IH.
Qed.

Lemma call_cell_mono r c method1 method2 self self' :
  (∀ cell cell', method1 cell = Ok cell' → method2 cell = Ok cell') →
  call_cell r c method1 self = Ok self' → call_cell r c method2 self = Ok self'.
Proof.
  intros Hm (cell & cell' & Hcell & Hrun & ->)%call_cell_Ok.
  apply call_cell_Ok. exists cell, cell'. split_and!; [done| |done]. by apply Hm.
Qed.

Lemma unaryFill_turn_mono d d' r self self' :
  d ≤ d' → unaryFill_turn d r self = Ok self' → unaryFill_turn d' r self = Ok self'.
Proof.
  intros Hle. unfold unaryFill_turn.
  destruct (matrix_at self r (r + 1)) as [entry|]; simpl; [|done].
  destruct (getitem (words self) r) as [w|]; simpl; [|done].
  destruct (deref entry) as [cell|]; simpl; [|done].
  destruct (Cell.unaryUpdate d _ _ _) as [cell'|] eqn:Hrun; simpl; [|done].
  by rewrite (unaryUpdate_mono _ d d' _ _ _ Hle Hrun).
Qed.

Lemma maybeBuild_mono d d' start mid end_ self self' :
  d ≤ d' → maybeBuild d start mid end_ self = Ok self' →
  maybeBuild d' start mid end_ self = Ok self'.
Proof.
  intros Hle. unfold maybeBuild.
  destruct (matrix_at self start end_); simpl; [|done].
  destruct (matrix_at self start mid) as [left|]; simpl; [|done].
  destruct (deref left) as [lcell|]; simpl; [|done].
  apply for_mono. intros s1 t t'.
  destruct (matrix_at t mid end_) as [right|]; simpl; [|done].
  destruct (deref right) as [rcell|]; simpl; [|done].
  apply for_mono. intros s2 t2 t2'.
  destruct (binary t2 !! (s1, s2)); [|done].
  apply for_mono. intros s t3 t3'.
  destruct (call_cell start end_ _ t3) as [t4|]; simpl; [|done].
  apply call_cell_mono. intros cell cell'. by apply unaryUpdate_mono.
Qed.

(** X10: a result that [recognise] returns does not depend on the nesting
    depth allowed: with any greater depth it returns the same outcome and
    the same chart. *)
Theorem recognise_depth_irrelevant (limit limit' : nat) (tokens : list string)
    (self : CKY) (result : outcome * CKY) :
  limit ≤ limit' →
  recognise limit tokens self = Ok result →
  recognise limit' tokens self = Ok result.
Proof.
  intros Hle. unfold recognise, fill_chart.
  destruct (unaryFill limit _) as [self1|] eqn:Hfill; simpl; [|done].
  assert (unaryFill limit' (recognise_init tokens false self) = Ok self1) as ->.
  { revert Hfill. unfold unaryFill. apply for_mono. intros r t t'.
    by apply unaryFill_turn_mono. }
  simpl. destruct (binaryScan limit self1) as [self2|] eqn:Hscan; simpl; [|done].
  assert (binaryScan limit' self1 = Ok self2) as ->; [|done].
  revert Hscan. unfold binaryScan. apply for_mono. intros span t t'.
  apply for_mono. intros start t1 t1'. apply for_mono. intros mid t2 t2'.
  by apply maybeBuild_mono.
Qed.

Lemma recognise_depth_irrelevant_witness :
  ∃ self',
    recognise 3 ["dog"] (recogniser chain_grammar) = Ok (ret_int 3, self') ∧
    recognise 1000 ["dog"] (recogniser chain_grammar) = Ok (ret_int 3, self').
Proof.
  eexists. assert (recognise 3 ["dog"] (recogniser chain_grammar)
                   = Ok (ret_int 3, _)) as Hrun by (vm_compute; reflexivity).
  split; [exact Hrun|].
  refine (recognise_depth_irrelevant 3 1000 _ _ _ _ Hrun). lia.
Defined.

(** ** Closing twice, and closing in another order *)

Lemma unaryUpdate_reached d u l cell :
  (∀ x, tc (parent_of u) l x → x ∈ Cell.labels cell) → returns d u l →
  Cell.unaryUpdate d u l cell = Ok cell.
Proof.
  revert l. induction d as [|d IH]; intros l Hin Hret; [done|].
  rewrite unaryUpdate_unfold. apply returns_unfold in Hret.
  assert (∀ p, p ∈ default [] (u !! l) → parent_of u l p) as Hps.
  { intros p Hp. destruct (u !! l) as [ps|] eqn:Hlk; [by exists ps|by apply elem_of_nil in Hp]. }
  destruct (u !! l) as [ps|]; [|done]. simpl in *.
  induction ps as [|p ps IHps]; [done|]. simpl.
  inversion Hret as [|? ? Hp Hrest]; subst.
  assert (parent_of u l p) as Hlp by (apply Hps; left).
  rewrite addLabel_present by (apply Hin; by apply tc_once).
  rewrite IH; [|intros x Hx; apply Hin; by eapply tc_l|done].
  apply IHps; [done|]. intros q Hq. apply Hps. by right.
Qed.

(** X11: adding a symbol and closing from it is idempotent: done again on
    the cell it returned, it returns that cell unchanged. *)
Theorem add_and_close_idempotent (limit : nat) (u : gmap Symbol (list Symbol))
    (s : Symbol) (cell cell' : Cell) :
  add_and_close limit u s cell = Ok cell' →
  add_and_close limit u s cell' = Ok cell'.
Proof.
  intros Hrun. pose proof (unaryUpdate_returns u _ _ _ _ Hrun) as Hret.
  apply add_and_close_closure in Hrun as (_ & _ & _ & _ & Hx).
  unfold add_and_close. rewrite addLabel_present.
  - apply unaryUpdate_reached; [|done]. intros x Hsx. apply Hx. right.
    exists s. split; [left|by apply tc_rtc].
  - apply Hx. right. exists s. split; [left|done].
Qed.

Lemma add_and_close_idempotent_witness :
  ∃ cell',
    add_and_close 10 chain_unary (Terminal "dog") (mkCell 0 1 []) = Ok cell' ∧
    add_and_close 10 chain_unary (Terminal "dog") cell' = Ok cell'.
Proof.
  eexists. assert (add_and_close 10 chain_unary (Terminal "dog") (mkCell 0 1 []) = Ok _)
    as Hrun by (vm_compute; reflexivity).
  split; [exact Hrun|]. exact (add_and_close_idempotent _ _ _ _ _ Hrun).
Defined.

Lemma add_and_close_loop_roots limit u roots cell cell' :
  for_ roots (add_and_close limit u) cell = Ok cell' →
  Forall (returns limit u) roots.
Proof.
  revert cell. induction roots as [|s roots IH]; intros cell Hrun; [constructor|].
  simpl in Hrun. destruct (add_and_close limit u s cell) as [cell1|] eqn:Hs; [|done].
  constructor; [by eapply unaryUpdate_returns|by eapply IH].
Qed.

(** X12: the labels that a cell holds after a series of symbols has been
    added and closed do not depend on the order of the series (nor on
    repetitions in it): another series with the same symbols returns too,
    with the same labels up to their order. *)
Theorem add_and_close_order (limit : nat) (u : gmap Symbol (list Symbol))
    (roots roots' : list Symbol) (cell cell1 : Cell) :
  NoDup (Cell.labels cell) →
  (∀ s, s ∈ roots ↔ s ∈ roots') →
  for_ roots (add_and_close limit u) cell = Ok cell1 →
  ∃ cell2, for_ roots' (add_and_close limit u) cell = Ok cell2 ∧
           Cell.labels cell1 ≡ₚ Cell.labels cell2.
Proof.
  intros Hnd Hsame Hrun. pose proof (add_and_close_loop_roots _ _ _ _ _ Hrun) as Hret.
  rewrite Forall_forall in Hret.
  destruct (for_progress (fun _ => True) roots' (add_and_close limit u) cell) as [cell2 Hrun2];
    [|done|].
  { intros s t Hs _. destruct (add_and_close_returns limit u s t) as [t' ->]; [|eauto].
    apply Hret. by apply Hsame. }
  exists cell2. split; [done|].
  apply add_and_close_loop in Hrun as (_ & _ & _ & Hnd1 & Hx1).
  apply add_and_close_loop in Hrun2 as (_ & _ & _ & Hnd2 & Hx2).
  apply NoDup_Permutation; [auto..|].
  intros x. rewrite Hx1, Hx2. split; (intros [?|(p & Hp & ?)]; [by left|right]);
    exists p; (split; [by apply Hsame|done]).
Qed.

Lemma add_and_close_order_witness :
  ∃ cell1 cell2,
    for_ [Nonterminal "N"; Terminal "dog"] (add_and_close 10 chain_unary) (mkCell 0 1 [])
      = Ok cell1 ∧
    for_ [Terminal "dog"; Nonterminal "N"; Terminal "dog"] (add_and_close 10 chain_unary)
      (mkCell 0 1 []) = Ok cell2 ∧
    Cell.labels cell1 ≡ₚ Cell.labels cell2.
Proof.
  assert (for_ [Nonterminal "N"; Terminal "dog"] (add_and_close 10 chain_unary)
            (mkCell 0 1 [])
          = Ok (mkCell 0 1 [Nonterminal "N"; Nonterminal "S"; Terminal "dog"]))
    as Hrun by (vm_compute; reflexivity).
  destruct (add_and_close_order 10 chain_unary [Nonterminal "N"; Terminal "dog"]
              [Terminal "dog"; Nonterminal "N"; Terminal "dog"] (mkCell 0 1 [])
              (mkCell 0 1 [Nonterminal "N"; Nonterminal "S"; Terminal "dog"]))
    as (cell2 & Hrun2 & Hperm).
  - simpl. constructor.
  - intros s. rewrite !elem_of_cons. tauto.
  - exact Hrun.
  - eexists _, cell2. split_and!; [exact Hrun|exact Hrun2|exact Hperm].
Defined.

(** ** The outcome depends on the set of productions only *)

Lemma derives_more ps ps' s ws :
  (∀ p, p ∈ ps → p ∈ ps') → derives ps s ws → derives ps' s ws.
Proof.
  intros Hsub. induction 1 as [w|p c ws Hp _ IH|p c1 c2 ws1 ws2 Hp _ IH1 _ IH2].
  - constructor.
  - apply derives_unary with c; [by apply Hsub|done].
  - apply derives_binary with c1 c2; [by apply Hsub|done..].
Qed.

(** X13: among grammars with the same start symbol the outcome grows with
    the set of productions and depends on nothing else.  If every
    production of one grammar is a production of the other and
    [recognise] returns for both (whatever the depths allowed), a sentence
    derivable in the first is derivable in the second, with at least as
    great a count; if the two grammars have the same productions, in any
    order and with any repetitions, the outcomes are equal. *)
Theorem recognise_outcome_of_production_set (g1 g2 : CFG) (limit1 limit2 : nat)
    (tokens : list string) (self1 self2 self1' self2' : CKY) (out1 out2 : outcome) :
  CKY_init g1 = Ok self1 → CKY_init g2 = Ok self2 →
  start g1 = start g2 →
  (∀ p, p ∈ productions g1 → p ∈ productions g2) →
  recognise limit1 tokens self1 = Ok (out1, self1') →
  recognise limit2 tokens self2 = Ok (out2, self2') →
  (∀ k1, out1 = ret_int k1 → ∃ k2, out2 = ret_int k2 ∧ k1 ≤ k2) ∧
  ((∀ p, p ∈ productions g2 → p ∈ productions g1) → out1 = out2).
Proof.
  intros Hinit1 Hinit2 Hstart Hsub Hrun1 Hrun2.
  destruct (recognise_top_derives g1 limit1 tokens self1 self1' out1 Hinit1 Hrun1)
    as (top1 & _ & Hnd1 & Hlab1 & Hout1).
  destruct (recognise_top_derives g2 limit2 tokens self2 self2' out2 Hinit2 Hrun2)
    as (top2 & _ & Hnd2 & Hlab2 & Hout2).
  assert (Cell.labels top1 ⊆ Cell.labels top2) as Hincl.
  { intros x Hx. apply Hlab2. eapply derives_more; [done|]. by apply Hlab1. }
  rewrite Hstart in Hout1. split.
  - intros k1. rewrite Hout1, Hout2.
    destruct (decide (start g2 ∉ Cell.labels top1)) as [|Hin1]; [done|].
    intros [= <-]. apply dec_stable in Hin1.
    rewrite decide_False by (intros Hno; apply Hno; by apply Hincl).
    eexists. split; [done|]. apply submseteq_length. by apply NoDup_submseteq.
  - intros Hsup.
    assert (Cell.labels top1 ≡ₚ Cell.labels top2) as Hperm.
    { apply NoDup_Permutation; [done..|]. intros x. rewrite Hlab1, Hlab2.
      split; by apply derives_more. }
    rewrite Hout1, Hout2.
    destruct (decide (start g2 ∉ Cell.labels top1)) as [Hno|Hin];
      [rewrite decide_True by (by rewrite <-Hperm)
      |rewrite decide_False by (by rewrite <-Hperm)]; [done|].
    f_equal. by apply Permutation_length.
Qed.

Lemma chain_shuffled_recogniser :
  CKY_init chain_grammar_shuffled = Ok (recogniser chain_grammar_shuffled).
Proof. vm_compute. reflexivity. Qed.

Lemma recognise_outcome_of_production_set_witness :
  ∃ self1' self2',
    recognise 10 ["dog"] (recogniser chain_grammar) = Ok (ret_int 3, self1') ∧
    recognise 20 ["dog"] (recogniser chain_grammar_shuffled) = Ok (ret_int 3, self2') ∧
    ret_int 3 = ret_int 3.
Proof.
  eexists _, _.
  assert (recognise 10 ["dog"] (recogniser chain_grammar) = Ok (ret_int 3, _))
    as Hrun1 by (vm_compute; reflexivity).
  assert (recognise 20 ["dog"] (recogniser chain_grammar_shuffled) = Ok (ret_int 3, _))
    as Hrun2 by (vm_compute; reflexivity).
  split_and!; [exact Hrun1|exact Hrun2|].
  refine (proj2 (recognise_outcome_of_production_set chain_grammar chain_grammar_shuffled
            _ _ _ _ _ _ _ _ _ chain_recogniser chain_shuffled_recogniser eq_refl _
            Hrun1 Hrun2) _).
  - intros p. simpl. rewrite !elem_of_cons. tauto.
  - intros p. simpl. rewrite !elem_of_cons. tauto.
Defined.

(** ** No label from nowhere *)

Lemma derives_origin ps s ws :
  derives ps s ws → (∃ w, s = Terminal w ∧ ws = [w]) ∨ s ∈ lhs <$> ps.
Proof.
  destruct 1 as [w|p c ws Hp _|p c1 c2 ws1 ws2 Hp _ _]; [left; eauto|right..];
    apply list_elem_of_fmap; eexists; (split; [|done]); done.
Qed.

(** X14: when [recognise] returns, a label of a cell is either the word at
    the position of a cell of span 1 or the left-hand side of a production;
    so a count that is returned exceeds the number of productions by at
    most 1. *)
Theorem recognise_labels_from_grammar (g : CFG) (limit : nat) (tokens : list string)
    (self self' : CKY) (out : outcome) :
  CKY_init g = Ok self →
  recognise limit tokens self = Ok (out, self') →
  (∀ r c cell x, cell_at self' r c = Some cell → x ∈ Cell.labels cell →
     (∃ w, x = Terminal w ∧ c = r + 1 ∧ tokens !! r = Some w) ∨
     x ∈ lhs <$> productions g) ∧
  (∀ k, out = ret_int k → k ≤ length (productions g) + 1).
Proof.
  intros Hinit Hrun. destruct (CKY_init_indexes g self Hinit) as [_ Hix].
  destruct (recognise_top _ _ _ _ _ Hrun) as (Hfill & Hfr & [Hwf _] & top & Htop & Hnd & Hout).
  pose proof (chart_sound (productions g) limit tokens self Hix self' Hfill) as Hsound.
  assert (∀ r c cell x, cell_at self' r c = Some cell → x ∈ Cell.labels cell →
     (∃ w, x = Terminal w ∧ c = r + 1 ∧ tokens !! r = Some w) ∨
     x ∈ lhs <$> productions g) as Hfrom.
  { intros r c cell x Hcell Hx.
    destruct (derives_origin _ _ _ (Hsound r c cell x Hcell Hx)) as [(w & -> & Hw)|?];
      [left|by right].
    exists w. split; [done|]. apply slice_word_inv; [|done].
    assert (is_Some (cell_at self' r c)) as Hsome by eauto.
    apply Hwf in Hsome. rewrite (frame_n _ _ Hfr) in Hsome. simpl in Hsome. lia. }
  split; [done|]. intros k. rewrite Hout. destruct (decide _); [done|]. intros [= <-].
  assert (∃ extra : list Symbol, length extra ≤ 1 ∧
            Cell.labels top ⊆ extra ++ (lhs <$> productions g)) as (extra & Hlen & Hincl).
  { destruct (decide (length tokens = 1)) as [Hone|Hmore].
    - destruct tokens as [|w [|? ?]]; simplify_eq/=. exists [Terminal w]. split; [done|].
      intros x Hx. destruct (Hfrom 0 1 top x Htop Hx) as [(w' & -> & _ & Hw)|Hl].
      + simpl in Hw. simplify_eq. left.
      + by right.
    - exists []. split; [simpl; lia|]. intros x Hx.
      destruct (Hfrom 0 (length tokens) top x Htop Hx) as [(w' & -> & Hc & _)|Hl]; [lia|done]. }
  apply NoDup_submseteq in Hincl; [|done]. apply submseteq_length in Hincl.
  rewrite length_app, length_fmap in Hincl. lia.
Qed.

Lemma recognise_labels_from_grammar_witness :
  ∃ self',
    recognise 10 ["dog"] (recogniser chain_grammar) = Ok (ret_int 3, self') ∧
    3 ≤ length (productions chain_grammar) + 1.
Proof.
  eexists. assert (recognise 10 ["dog"] (recogniser chain_grammar) = Ok (ret_int 3, _))
    as Hrun by (vm_compute; reflexivity).
  split; [exact Hrun|].
  exact (proj2 (recognise_labels_from_grammar chain_grammar _ _ _ _ _ chain_recogniser Hrun)
           3 eq_refl).
Defined.

(** ** Equality of labels *)



(** ** What the binary scan leaves alone *)





(** X17: the binary scan only extends cells: a cell is where it was, with
    its position and with its earlier labels in their places at the front
    of its label list; and the cells of span 1 are just as the diagonal
    fill left them. *)
Theorem binaryScan_extends_cells (limit : nat) (self self' : CKY) :
  chart_ok self → binaryScan limit self = Ok self' →
  (∀ r c cell, cell_at self r c = Some cell →
     ∃ cell', cell_at self' r c = Some cell' ∧
       _row cell' = _row cell ∧ _column cell' = _column cell ∧
       Cell.labels cell `prefix_of` Cell.labels cell') ∧
  (∀ r, cell_at self' r (r + 1) = cell_at self r (r + 1)).
Proof.
  intros Hok Hscan. rewrite binaryScan_visits in Hscan.
  destruct (scan_run limit _ self self' (fun v Hv => Hv) Hok Hscan) as (_ & _ & Hgrow & Hsame).
  split; [done|]. intros r. apply Hsame.
  intros [[start mid] end_] (Hspan & _)%elem_of_scan_visits [= Hs He]. simpl in *. lia.
Qed.

Lemma binaryScan_extends_cells_witness :
  ∃ self1 self',
    unaryFill 10 (recognise_init ["the"; "dog"; "barks"] false (recogniser dog_grammar))
      = Ok self1 ∧
    binaryScan 10 self1 = Ok self' ∧
    ∀ r, cell_at self' r (r + 1) = cell_at self1 r (r + 1).
Proof.
  destruct (unaryFill 10 (recognise_init ["the"; "dog"; "barks"] false
                            (recogniser dog_grammar))) as [self1|] eqn:Hfill;
    [|vm_compute in Hfill; discriminate].
  destruct (unaryFill_chart (fun _ => True) 10 _ self1 (stable_True _ _)
              (chart_ok_init _ _ _) (fun _ _ _ _ => I) Hfill) as (Hok & _ & _).
  destruct (binaryScan 10 self1) as [self'|] eqn:Hscan.
  - exists self1, self'. split_and!; [done..|].
    exact (proj2 (binaryScan_extends_cells 10 self1 self' Hok Hscan)).
  - exfalso. vm_compute in Hfill. injection Hfill as <-.
    vm_compute in Hscan. discriminate.
Defined.
